(** * NachOS MP3 scheduler and MP4 file system: a shallow embedding

    Sources embedded here:
    - [NachOS-4.0_MP3/code/threads/scheduler.cc]: the three-level ready
      queue ([ReadyToRun], [aging], [agingCheck], [FindNextToRun]) and the
      preemption poll ([preemptL1], [doPreemptL1]);
    - [NachOS-4.0_MP4/code/filesys/filehdr.cc]: the multi-level file header
      ([Allocate], [Deallocate], [ByteToSector], [FetchFrom], [WriteBack]);
    - [NachOS-4.0_MP4/code/filesys/filesys.cc] and [userprog/ksyscall.h]:
      the two path walks [Open] and [OpenAFile] (behind [SysOpen]),
      [CloseFile] (behind [SysClose]), [Create] (behind [SysCreate]) and
      [Remove].

    C [int]s are integers of [Z]; the quantities handled here (tick counts,
    priorities, byte sizes, sector numbers) stay far from the 32-bit limits.
    Pointers to threads are names of a thread heap. *)

From Stdlib Require Import ZArith Lia String Ascii Sorted.
From stdpp Require Import base numbers list sets.

Local Open Scope Z_scope.

(* ===================================================================== *)
(** * Part I. Definitions                                                 *)
(* ===================================================================== *)

(* --------------------------------------------------------------------- *)
(** ** Outcomes of a call                                                *)
(* --------------------------------------------------------------------- *)

(** A call ends with a value, or in a fault (a failed [ASSERT], an access
    outside an array, a [NULL] string handed to the directory), or the
    model runs out of the fuel that bounds recursion and [while] loops. *)
Inductive fault := AssertionFailed | OutOfBounds | NullPointer.

Inductive outcome (A : Type) : Type :=
  | Done (a : A)
  | Fault (f : fault)
  | OutOfFuel.

Arguments Done {A} a.
Arguments Fault {A} f.
Arguments OutOfFuel {A}.

#[global] Instance outcome_ret : MRet outcome := fun A a => Done a.

#[global] Instance outcome_bind : MBind outcome := fun A B f m =>
  match m with
  | Done a => f a
  | Fault e => Fault e
  | OutOfFuel => OutOfFuel
  end.

(* --------------------------------------------------------------------- *)
(** ** Threads and the kernel state seen by the scheduler                 *)
(* --------------------------------------------------------------------- *)

Inductive ThreadStatus := JUST_CREATED | RUNNING | READY | BLOCKED | ZOMBIE.

(** The fields of [Thread] that scheduler.cc reads or writes. [predictTime]
    is only ever compared. *)
Record Thread := mkThread {
  priority : Z;
  predictTime : Z;
  ReadyStartTime : Z;
  TimeInReadyQueue : Z;
  status : ThreadStatus
}.

(** A [Thread *]. *)
Abbreviation tid := nat (only parsing).

Inductive QueueId := Q1 | Q2 | Q3.

#[global] Instance QueueId_eq_dec : EqDecision QueueId.
Proof. solve_decision. Defined.

(** What scheduler.cc reaches through [kernel->...] and [this->...]:
    the thread objects, [kernel->stats->totalTicks],
    [kernel->currentThread], [kernel->alarm->preemptive] and the three
    ready lists. *)
Record Kernel := mkKernel {
  threads : tid -> Thread;
  totalTicks : Z;
  currentThread : tid;
  preemptive : bool;
  L1 : list tid;
  L2 : list tid;
  L3 : list tid
}.

Definition getq (q : QueueId) (k : Kernel) : list tid :=
  match q with Q1 => L1 k | Q2 => L2 k | Q3 => L3 k end.

Definition setq (q : QueueId) (l : list tid) (k : Kernel) : Kernel :=
  match q with
  | Q1 => mkKernel (threads k) (totalTicks k) (currentThread k) (preemptive k)
                   l (L2 k) (L3 k)
  | Q2 => mkKernel (threads k) (totalTicks k) (currentThread k) (preemptive k)
                   (L1 k) l (L3 k)
  | Q3 => mkKernel (threads k) (totalTicks k) (currentThread k) (preemptive k)
                   (L1 k) (L2 k) l
  end.

Definition set_thread (t : tid) (th : Thread) (k : Kernel) : Kernel :=
  mkKernel (fun x => if Nat.eqb x t then th else threads k x)
           (totalTicks k) (currentThread k) (preemptive k)
           (L1 k) (L2 k) (L3 k).

Definition set_preemptive (b : bool) (k : Kernel) : Kernel :=
  mkKernel (threads k) (totalTicks k) (currentThread k) b
           (L1 k) (L2 k) (L3 k).

(* --------------------------------------------------------------------- *)
(** ** The list library                                                   *)
(* --------------------------------------------------------------------- *)

(** lib/list.h is not among the sources. A list is modelled as the
    sequence of its items; of the library's internal assertions only the
    one of [List::Remove] is modelled, in the loop of [aging]. *)

(** Modelled from the spec: [List::Append], missing with lib/list.h; the
    item goes to the end ("L3 preserves insertion order"). *)
Definition List_Append {T} (item : T) (l : list T) : list T := l ++ [item].

(** Modelled from the spec: [SortedList::Insert], missing with lib/list.h;
    the item goes before the first element it compares strictly below, so
    that equal items stay in insertion order ("ties resolved by insertion
    order"). *)
Fixpoint SortedList_Insert {T} (compare : T -> T -> Z) (item : T) (l : list T)
  : list T :=
  match l with
  | [] => [item]
  | y :: l' =>
      if compare item y <? 0 then item :: y :: l'
      else y :: SortedList_Insert compare item l'
  end.

(** Modelled from the spec: the place of the element that
    [SortedList::Insert] links in, missing with lib/list.h: the items
    behind the new element. *)
Fixpoint SortedList_behind {T} (compare : T -> T -> Z) (item : T) (l : list T)
  : list T :=
  match l with
  | [] => []
  | y :: l' =>
      if compare item y <? 0 then y :: l'
      else SortedList_behind compare item l'
  end.

(** Modelled from the spec: [List::IsInList], missing with lib/list.h. *)
Definition List_IsInList (item : tid) (l : list tid) : bool :=
  existsb (Nat.eqb item) l.

(** Modelled from the spec: [List::Remove], missing with lib/list.h; the
    item is taken off the list ("remove [t] from its current queue"). *)
Fixpoint List_Remove (item : tid) (l : list tid) : list tid :=
  match l with
  | [] => []
  | y :: l' => if Nat.eqb item y then l' else y :: List_Remove item l'
  end.

(** Modelled from the spec: [List::IsEmpty], missing with lib/list.h.
    [List::RemoveFront] is the pattern match on the head in
    [FindNextToRun]. *)
Definition List_IsEmpty {T} (l : list T) : bool :=
  match l with [] => true | _ => false end.

(* --------------------------------------------------------------------- *)
(** ** scheduler.cc                                                       *)
(* --------------------------------------------------------------------- *)

(** [Timecmp]: shorter predicted burst first. *)
Definition Timecmp (t1 t2 : Thread) : Z :=
  if predictTime t1 >=? predictTime t2 then 1 else -1.

(** [Pricmp]: higher priority first. *)
Definition Pricmp (t1 t2 : Thread) : Z :=
  if priority t1 <=? priority t2 then 1 else -1.

(** The comparators take [Thread *]: they read the heap. *)
Definition cmp_of (f : Thread -> Thread -> Z) (k : Kernel) (a b : tid) : Z :=
  f (threads k a) (threads k b).

Definition L1_Insert (t : tid) (k : Kernel) : Kernel :=
  setq Q1 (SortedList_Insert (cmp_of Timecmp k) t (L1 k)) k.

Definition L2_Insert (t : tid) (k : Kernel) : Kernel :=
  setq Q2 (SortedList_Insert (cmp_of Pricmp k) t (L2 k)) k.

Definition L3_Append (t : tid) (k : Kernel) : Kernel :=
  setq Q3 (List_Append t (L3 k)) k.

(** [Scheduler::ReadyToRun]. A priority of 150 or more matches none of the
    three tests and the thread is put on no list. *)
Definition ReadyToRun (thread : tid) (k : Kernel) : Kernel :=
  let th := threads k thread in
  let th := mkThread (priority th) (predictTime th) (totalTicks k)
                     (TimeInReadyQueue th) READY in
  let k := set_thread thread th k in
  if (priority th <? 150) && (priority th >=? 100) then L1_Insert thread k
  else if (priority th <? 100) && (priority th >=? 50) then L2_Insert thread k
  else if priority th <? 50 then L3_Append thread k
  else k.

(** Lines 127-149 of [Scheduler::aging]: the promoted thread, already taken
    off its list, goes on the list of its new priority, and the preemption
    flag [kernel->alarm->preemptive] is raised against the running thread. *)
Definition aging_requeue (iterThread : tid) (k : Kernel) : Kernel :=
  if priority (threads k iterThread) >=? 100 then
    let k := L1_Insert iterThread k in
    if priority (threads k (currentThread k)) <? 100 then
      set_preemptive true k
    else if (priority (threads k (currentThread k)) >=? 100)
            && (predictTime (threads k (currentThread k))
                >? predictTime (threads k iterThread)) then
      set_preemptive true k
    else k
  else if priority (threads k iterThread) >=? 50 then
    let k := L2_Insert iterThread k in
    if priority (threads k (currentThread k)) <? 50 then
      set_preemptive true k
    else k
  else L3_Append iterThread k.

(** The body of the loop of [Scheduler::aging] for one item of the list
    [list] (one of [L1], [L2], [L3], named by [q]). *)
Definition aging_body (q : QueueId) (k : Kernel) (iterThread : tid) : Kernel :=
  let th := threads k iterThread in
  let total := totalTicks k - ReadyStartTime th + TimeInReadyQueue th in
  let oldPriority := priority th in
  if ((oldPriority >=? 0) && (oldPriority <? 150)) && (total >=? 1500) then
    let th :=
      mkThread (if oldPriority + 10 >? 149 then 149 else oldPriority + 10)
               (predictTime th) (totalTicks k) (total - 1500) (status th) in
    let k := set_thread iterThread th k in
    let k := setq q (List_Remove iterThread (getq q k)) k in
    aging_requeue iterThread k
  else k.

(** The test of line 121 of [Scheduler::aging]. *)
Definition aging_test (k : Kernel) (iterThread : tid) : bool :=
  let th := threads k iterThread in
  let total := totalTicks k - ReadyStartTime th + TimeInReadyQueue th in
  let oldPriority := priority th in
  ((oldPriority >=? 0) && (oldPriority <? 150)) && (total >=? 1500).

(** Lines 122-126 for a thread that passed the test: its fields are
    written and it is taken off [list]. *)
Definition aging_take (q : QueueId) (k : Kernel) (iterThread : tid) : Kernel :=
  let th := threads k iterThread in
  let total := totalTicks k - ReadyStartTime th + TimeInReadyQueue th in
  let oldPriority := priority th in
  let th :=
    mkThread (if oldPriority + 10 >? 149 then 149 else oldPriority + 10)
             (predictTime th) (totalTicks k) (total - 1500) (status th) in
  let k := set_thread iterThread th k in
  setq q (List_Remove iterThread (getq q k)) k.

(** The items behind [iterThread] on the list where [aging_requeue] links
    it in, seen from the state [aging_requeue] starts in. *)
Definition aging_behind (k : Kernel) (iterThread : tid) : list tid :=
  if priority (threads k iterThread) >=? 100 then
    SortedList_behind (cmp_of Timecmp k) iterThread (L1 k)
  else if priority (threads k iterThread) >=? 50 then
    SortedList_behind (cmp_of Pricmp k) iterThread (L2 k)
  else [].

(** The loop of [Scheduler::aging(list)]; [items] are the items from the
    iterator's element on. Modelled from the spec: [ListIterator] and the
    storage of list elements, missing with lib/list.h and not described by
    the specification. The iterator holds the element it stands on;
    [list->Remove(iterThread)] asserts that the item is on [list] and
    deletes that element under the iterator, and the element that [Insert]
    or [Append] allocates next takes the storage just given back. After a
    promotion the iterator so stands on the promoted thread where it has
    been linked in again, and [iter->Next()] goes on with the items behind
    it there, on whichever list that is; [list] stays the list the pass
    was started on. *)
Fixpoint aging_for (fuel : nat) (q : QueueId) (items : list tid) (k : Kernel)
  : outcome Kernel :=
  match items with
  | [] => Done k
  | iterThread :: behind =>
      match fuel with
      | O => OutOfFuel
      | S fuel =>
          if aging_test k iterThread then
            if List_IsInList iterThread (getq q k) then
              aging_for fuel q
                (aging_behind (aging_take q k iterThread) iterThread)
                (aging_body q k iterThread)
            else Fault AssertionFailed
          else aging_for fuel q behind k
      end
  end.

(** [Scheduler::aging(list)]: the iterator starts on the first item. *)
Definition aging (fuel : nat) (q : QueueId) (k : Kernel) : outcome Kernel :=
  aging_for fuel q (getq q k) k.

(** [Scheduler::agingCheck]. *)
Definition agingCheck (fuel : nat) (k : Kernel) : outcome Kernel :=
  k ← aging fuel Q1 k;
  k ← aging fuel Q2 k;
  aging fuel Q3 k.

(** What [FindNextToRun] does with the thread it took from a list. *)
Definition leave_ready (thread : tid) (k : Kernel) : Kernel :=
  let th := threads k thread in
  set_thread thread
    (mkThread (priority th) (predictTime th) (ReadyStartTime th)
              (TimeInReadyQueue th + (totalTicks k - ReadyStartTime th))
              (status th)) k.

(** [Scheduler::FindNextToRun]; [None] is the [NULL] thread. *)
Definition FindNextToRun (k : Kernel) : option tid * Kernel :=
  if negb (List_IsEmpty (L1 k)) then
    match L1 k with
    | thread :: rest => (Some thread, leave_ready thread (setq Q1 rest k))
    | [] => (None, k)
    end
  else if negb (List_IsEmpty (L2 k)) then
    match L2 k with
    | thread :: rest => (Some thread, leave_ready thread (setq Q2 rest k))
    | [] => (None, k)
    end
  else if negb (List_IsEmpty (L3 k)) then
    match L3 k with
    | thread :: rest => (Some thread, leave_ready thread (setq Q3 rest k))
    | [] => (None, k)
    end
  else (None, k).

(* --------------------------------------------------------------------- *)
(** ** Vocabulary of the scheduler claims                                 *)
(* --------------------------------------------------------------------- *)

(** The priority bands of the three queues. *)
Definition inBand (q : QueueId) (p : Z) : Prop :=
  match q with
  | Q1 => 100 <= p <= 149
  | Q2 => 50 <= p <= 99
  | Q3 => 0 <= p <= 49
  end.

Definition bandOf (p : Z) : QueueId :=
  if 100 <=? p then Q1 else if 50 <=? p then Q2 else Q3.

(** The ready threads, and the invariant of the ready queues: a ready
    thread is on one list, once, and that list is the one of its band. *)
Definition ready (k : Kernel) : list tid := L1 k ++ L2 k ++ L3 k.

Definition ReadyInv (k : Kernel) : Prop :=
  NoDup (ready k) /\
  forall q t, t ∈ getq q k -> inBand q (priority (threads k t)).

(** Waiting time of a ready thread at tick [now], the aging test and the
    aged thread. *)
Definition waited (now : Z) (th : Thread) : Z :=
  now - ReadyStartTime th + TimeInReadyQueue th.

Definition due (now : Z) (th : Thread) : Prop :=
  (0 <= priority th < 150) /\ 1500 <= waited now th.

(** The thread after one promotion at tick [now]. *)
Definition aged (now : Z) (th : Thread) : Thread :=
  mkThread (Z.min 149 (priority th + 10)) (predictTime th) now
           (waited now th - 1500) (status th).

#[global] Instance due_dec now th : Decision (due now th).
Proof. unfold due. apply _. Defined.

(** A ready thread after an aging tick. *)
Definition after_aging (now : Z) (th : Thread) : Thread :=
  if decide (due now th) then aged now th else th.

(** [FindNextToRun] looks at a list only when the lists before it are empty. *)
Definition higher_empty (q : QueueId) (k : Kernel) : Prop :=
  match q with
  | Q1 => True
  | Q2 => L1 k = []
  | Q3 => L1 k = [] /\ L2 k = []
  end.


(* --------------------------------------------------------------------- *)
(** ** scheduler.cc: the preemption poll, and the order of the lists      *)
(* --------------------------------------------------------------------- *)

(** The body of the loop of [Scheduler::preemptL1] for one item. *)
Definition preemptL1_body (k : Kernel) (iterThread : tid) : Kernel :=
  if (priority (threads k (currentThread k)) >=? 100)
     && (predictTime (threads k (currentThread k))
         >? predictTime (threads k iterThread)) then
    set_preemptive true k
  else k.

(** [Scheduler::preemptL1(list)]; the loop leaves the list alone. *)
Definition preemptL1 (list : list tid) (k : Kernel) : Kernel :=
  fold_left preemptL1_body list k.

(** [Scheduler::doPreemptL1]. *)
Definition doPreemptL1 (k : Kernel) : Kernel := preemptL1 (L1 k) k.

(** The orders of L1 and L2: predicted burst going up, priority going
    down. *)
Definition byPredictTime (k : Kernel) (a b : tid) : Prop :=
  predictTime (threads k a) <= predictTime (threads k b).

Definition byPriority (k : Kernel) (a b : tid) : Prop :=
  priority (threads k b) <= priority (threads k a).

Definition QueuesSorted (k : Kernel) : Prop :=
  StronglySorted (byPredictTime k) (L1 k) /\
  StronglySorted (byPriority k) (L2 k).

(** The promotions that the ready threads can still get at the current
    tick, one for every 1500 ticks waited, and fuel that lasts for an
    aging pass. *)
Definition promotions_left (k : Kernel) : nat :=
  sum_list_with
    (fun t => Z.to_nat (waited (totalTicks k) (threads k t) `div` 1500))
    (ready k).

Definition aging_fuel (k : Kernel) : nat :=
  S (promotions_left k * S (length (ready k)) + length (ready k)).

(* --------------------------------------------------------------------- *)
(** ** Loops and arithmetic of the file-system code                       *)
(* --------------------------------------------------------------------- *)

(** [for (int i = from; i < to; i++) body], with a bound the body leaves
    alone. *)
Fixpoint for_loop_n {S} (n : nat) (i : Z) (body : Z -> S -> outcome S) (s : S)
  : outcome S :=
  match n with
  | O => Done s
  | S n' => s' ← body i s; for_loop_n n' (i + 1) body s'
  end.

Definition for_loop {S} (from to : Z) (body : Z -> S -> outcome S) (s : S)
  : outcome S :=
  for_loop_n (Z.to_nat (to - from)) from body s.

(** Modelled from the spec: [divRoundUp], missing with lib/utility.h:
    "ceil(numBytes/SectorSize)", written with C's truncating division. *)
Definition divRoundUp (n s : Z) : Z :=
  Z.quot n s + (if Z.rem n s >? 0 then 1 else 0).

(** Modelled from the spec: [divRoundDown], missing with lib/utility.h:
    "which = offset / nBytes". *)
Definition divRoundDown (n s : Z) : Z := Z.quot n s.

(* --------------------------------------------------------------------- *)
(** ** The free-sector bitmap                                             *)
(* --------------------------------------------------------------------- *)

(** lib/bitmap.cc and filesys/pbitmap.cc are not among the sources. The
    map is "one bit per sector (1 = allocated)". *)
Abbreviation Bitmap := (list bool).

(** Modelled from the spec: [Bitmap::NumClear], missing with lib/bitmap.cc;
    the number of "free bits". *)
Fixpoint Bitmap_NumClear (map : Bitmap) : Z :=
  match map with
  | [] => 0
  | b :: map' => (if b then 0 else 1) + Bitmap_NumClear map'
  end.

(** Modelled from the spec: [Bitmap::FindAndSet], missing with
    lib/bitmap.cc; the "atomic find-and-set": the first clear bit is set
    and its index returned, and -1 is returned when no bit is clear.
    [FindAndSet_from i] scans the bits from index [i] on. *)
Fixpoint FindAndSet_from (i : Z) (map : Bitmap) : Z * Bitmap :=
  match map with
  | [] => (-1, [])
  | b :: map' =>
      if b then
        let '(r, map'') := FindAndSet_from (i + 1) map' in (r, b :: map'')
      else (i, true :: map')
  end.

Definition Bitmap_FindAndSet (map : Bitmap) : Z * Bitmap :=
  FindAndSet_from 0 map.

(** Modelled from the spec: [Bitmap::Test], missing with lib/bitmap.cc; the
    bit of a sector, for an index that is a bit of the map ("assert: bitmap
    bit expected set" is the caller's). *)
Definition Bitmap_Test (map : Bitmap) (which : Z) : outcome bool :=
  if (0 <=? which) && (which <? Z.of_nat (length map)) then
    match map !! Z.to_nat which with
    | Some b => Done b
    | None => Fault OutOfBounds
    end
  else Fault AssertionFailed.

(** Modelled from the spec: [Bitmap::Clear], missing with lib/bitmap.cc;
    "clear each [dataSectors[i]] in the map", for an index that is a bit of
    the map. *)
Definition Bitmap_Clear (map : Bitmap) (which : Z) : outcome Bitmap :=
  if (0 <=? which) && (which <? Z.of_nat (length map)) then
    Done (<[Z.to_nat which := false]> map)
  else Fault AssertionFailed.

(* --------------------------------------------------------------------- *)
(** ** filehdr.cc                                                         *)
(* --------------------------------------------------------------------- *)

(** The on-disk record: [numBytes], [numSectors] and the array
    [dataSectors[NumDirect]]. *)
Record FileHeader := mkFileHeader {
  numBytes : Z;
  numSectors : Z;
  dataSectors : list Z
}.

(** The disk, seen through [FetchFrom] and [WriteBack]: a header is exactly
    one sector, so every sector reads as some header. *)
Abbreviation Disk := (Z -> FileHeader).

(** The free map handed to the header routines, and the disk behind
    [kernel->synchDisk]. *)
Record FS := mkFS {
  freeMap : Bitmap;
  disk : Disk
}.

(** The constants of disk.h and filehdr.h (not among the sources) are
    parameters: the bytes of a sector, the entries of [dataSectors] and the
    sectors of the disk. *)
Record Geometry := mkGeometry {
  SectorSize : Z;
  NumDirect : Z;
  NumSectors : Z
}.

Section FileHeader.

Variable g : Geometry.

(** [#define Level2], [Level3], [Level4]. *)
Definition Level2 : Z := NumDirect g * SectorSize g.
Definition Level3 : Z := NumDirect g * NumDirect g * SectorSize g.
Definition Level4 : Z := NumDirect g * NumDirect g * NumDirect g * SectorSize g.

(** [FileHeader::FileHeader]: every field is -1. *)
Definition new_FileHeader : FileHeader :=
  mkFileHeader (-1) (-1) (replicate (Z.to_nat (NumDirect g)) (-1)).

(** [dataSectors[i]], read and written; outside the array is a fault. *)
Definition dataSectors_get (this : FileHeader) (i : Z) : outcome Z :=
  if 0 <=? i then
    match dataSectors this !! Z.to_nat i with
    | Some s => Done s
    | None => Fault OutOfBounds
    end
  else Fault OutOfBounds.

Definition dataSectors_set (this : FileHeader) (i : Z) (s : Z)
  : outcome FileHeader :=
  if (0 <=? i) && (i <? Z.of_nat (length (dataSectors this))) then
    Done (mkFileHeader (numBytes this) (numSectors this)
                       (<[Z.to_nat i := s]> (dataSectors this)))
  else Fault OutOfBounds.

(** Modelled from the spec: [SynchDisk::ReadSector] and [WriteSector]
    (not among the sources), "blocking read_sector(n,buf) /
    write_sector(n,buf)" on "sector indices up to NumSectors-1"; a sector
    number outside the disk fails the disk's assertion. *)
Definition in_disk (sector : Z) : bool :=
  (0 <=? sector) && (sector <? NumSectors g).

(** [FileHeader::FetchFrom] and [FileHeader::WriteBack]. *)
Definition FetchFrom (sector : Z) (d : Disk) : outcome FileHeader :=
  if in_disk sector then Done (d sector) else Fault AssertionFailed.

Definition WriteBack (this : FileHeader) (sector : Z) (d : Disk)
  : outcome Disk :=
  if in_disk sector then
    Done (fun s => if s =? sector then this else d s)
  else Fault AssertionFailed.

(** Lines 86-97 of [Allocate]: the span of one sub-header. *)
Definition Allocate_bound (fileSize : Z) : Z :=
  if fileSize >? Level4 then Level4
  else if fileSize >? Level3 then Level3
  else Level2.

(** The step of the direct loop of [Allocate]:
    [dataSectors[i] = freeMap->FindAndSet(); ASSERT(dataSectors[i] >= 0)]. *)
Definition Allocate_claim (i : Z) (st : FileHeader * FS)
  : outcome (FileHeader * FS) :=
  let '(this, w) := st in
  let '(s, map) := Bitmap_FindAndSet (freeMap w) in
  this ← dataSectors_set this i s;
  if s >=? 0 then Done (this, mkFS map (disk w)) else Fault AssertionFailed.

(** [FileHeader::Allocate], on the header [this]; [Allocate_while] is its
    [while (fileSize > 0)] loop. The result of the nested [Allocate] is
    dropped, as in the source. *)
Fixpoint Allocate (fuel : nat) (this : FileHeader) (w : FS) (fileSize : Z)
  {struct fuel} : outcome (bool * FileHeader * FS) :=
  match fuel with
  | O => OutOfFuel
  | S fuel =>
      let this := mkFileHeader fileSize (divRoundUp fileSize (SectorSize g))
                               (dataSectors this) in
      if Bitmap_NumClear (freeMap w) <? numSectors this then
        Done (false, this, w)
      else if fileSize >? Level2 then
        let bound := Allocate_bound fileSize in
        '(this, w) ← Allocate_while fuel bound this w fileSize 0;
        Done (true, this, w)
      else
        '(this, w) ← for_loop 0 (numSectors this) Allocate_claim (this, w);
        Done (true, this, w)
  end
with Allocate_while (fuel : nat) (bound : Z) (this : FileHeader) (w : FS)
                    (fileSize i : Z) {struct fuel}
  : outcome (FileHeader * FS) :=
  match fuel with
  | O => OutOfFuel
  | S fuel =>
      if fileSize >? 0 then
        '(this, w) ← Allocate_claim i (this, w);
        s ← dataSectors_get this i;
        let subheader := new_FileHeader in
        if fileSize >? bound then
          '(_, subheader, w) ← Allocate fuel subheader w bound;
          let fileSize := fileSize - bound in
          d ← WriteBack subheader s (disk w);
          Allocate_while fuel bound this (mkFS (freeMap w) d) fileSize (i + 1)
        else
          '(_, subheader, w) ← Allocate fuel subheader w fileSize;
          let fileSize := fileSize - bound in
          d ← WriteBack subheader s (disk w);
          Allocate_while fuel bound this (mkFS (freeMap w) d) fileSize (i + 1)
      else Done (this, w)
  end.

(** The step of the direct loop of [Deallocate]:
    [ASSERT(freeMap->Test(dataSectors[i])); freeMap->Clear(dataSectors[i])]. *)
Definition Deallocate_release (this : FileHeader) (i : Z) (w : FS)
  : outcome FS :=
  s ← dataSectors_get this i;
  marked ← Bitmap_Test (freeMap w) s;
  if (marked : bool) then
    map ← Bitmap_Clear (freeMap w) s;
    Done (mkFS map (disk w))
  else Fault AssertionFailed.

(** [FileHeader::Deallocate]. *)
Fixpoint Deallocate (fuel : nat) (this : FileHeader) (w : FS) {struct fuel}
  : outcome FS :=
  match fuel with
  | O => OutOfFuel
  | S fuel =>
      if numBytes this >? Level2 then
        let round := divRoundUp (numSectors this) (NumDirect g) in
        for_loop 0 round
          (fun i w =>
             s ← dataSectors_get this i;
             subhdr ← FetchFrom s (disk w);
             Deallocate fuel subhdr w)
          w
      else
        for_loop 0 (numSectors this) (Deallocate_release this) w
  end.

(** [FileHeader::ByteToSector]. *)
Fixpoint ByteToSector (fuel : nat) (this : FileHeader) (d : Disk) (offset : Z)
  {struct fuel} : outcome Z :=
  match fuel with
  | O => OutOfFuel
  | S fuel =>
      if numBytes this >? Level2 then
        let nBytes :=
          if numBytes this >? Level4 then Level4
          else if numBytes this >? Level3 then Level3
          else Level2 in
        let which := divRoundDown offset nBytes in
        let pos := Z.rem offset nBytes in
        s ← dataSectors_get this which;
        subheader ← FetchFrom s d;
        ByteToSector fuel subheader d pos
      else
        dataSectors_get this (Z.quot offset (SectorSize g))
  end.

(** Fuel that lets [Allocate] run to its end on a file of [fileSize]
    bytes, and fuel for the walks down a header of at most four levels. *)
Definition Allocate_fuel (fileSize : Z) : nat := 3 * Z.to_nat fileSize + 7.
Definition header_fuel : nat := 4.

(** The release of a file's blocks in [FileSystem::Remove] (lines 459-463):
    the header is fetched from [sector], its blocks are deallocated, and
    the header's own sector is cleared. *)
Definition Remove_blocks (fuel : nat) (sector : Z) (w : FS) : outcome FS :=
  fileHdr ← FetchFrom sector (disk w);
  w ← Deallocate fuel fileHdr w;
  map ← Bitmap_Clear (freeMap w) sector;
  Done (mkFS map (disk w)).

End FileHeader.

(* --------------------------------------------------------------------- *)
(** ** Directories and open files                                         *)
(* --------------------------------------------------------------------- *)

(** directory.cc and openfile.cc are not among the sources. *)

(** Modelled from the spec: [DirectoryEntry], missing with directory.h:
    "[inUse] flag, [name], [sector] (header location), [isDirectory]
    flag". A [Directory] is its table. *)
Record DirectoryEntry := mkDirectoryEntry {
  inUse : bool;
  isDirectory : bool;
  sector : Z;
  name : string
}.

Abbreviation Directory := (list DirectoryEntry).

(** Modelled from the spec: [Directory::Directory], missing with
    directory.cc; a fresh table has no entry in use ("an empty
    directory"). *)
Definition new_Directory (size : nat) : Directory :=
  replicate size (mkDirectoryEntry false false 0 "").

(** Modelled from the spec: [Directory::Find], missing with directory.cc:
    "linear scan over in-use entries comparing names byte-wise", giving the
    sector of the entry, or -1. *)
Fixpoint Directory_Find (table : Directory) (nm : string) : Z :=
  match table with
  | [] => -1
  | e :: table' =>
      if inUse e && String.eqb (name e) nm then sector e
      else Directory_Find table' nm
  end.

(** Modelled from the spec: [OpenFile], missing with openfile.cc; "a
    lightweight cursor carrying the file header (read into memory from a
    sector at open)": an open file is known by the sector of its header. *)
Record OpenFile := mkOpenFile { hdrSector : Z }.

(** [#define DirectorySector 1] and [#define NumDirEntries 64]. *)
Definition DirectorySector : Z := 1.
Definition NumDirEntries : nat := 64.

(** What the path walks of filesys.cc see: the root directory file, kept
    open; the slot [fileDescriptor]; and, for the file whose header is in a
    sector, the directory table its contents read as. *)
Record FileSystem := mkFileSystem {
  directoryFile : OpenFile;
  fileDescriptor : option OpenFile;
  tableOf : Z -> Directory
}.

(** Modelled from the spec: [Directory::FetchFrom], missing with
    directory.cc; the table is read from the contents of the file. *)
Definition Directory_FetchFrom (fs : FileSystem) (file : OpenFile)
  : Directory :=
  tableOf fs (hdrSector file).

(** Modelled from the spec: the C library's [strtok(name, "/")] and
    [strtok(NULL, "/")]: "paths are slash-separated"; the tokens are the
    maximal runs without the delimiter, in order. [tok] is the run being
    read. *)
Fixpoint strtok_from (delim : ascii) (tok : string) (s : string)
  : list string :=
  match s with
  | EmptyString => match tok with EmptyString => [] | _ => [tok] end
  | String c s' =>
      if Ascii.eqb c delim then
        match tok with
        | EmptyString => strtok_from delim "" s'
        | _ => tok :: strtok_from delim "" s'
        end
      else strtok_from delim (tok ++ String c "") s'
  end.

(** The tokens of a path: [strtok(name, "/")], then [strtok(NULL, "/")]
    until it gives [NULL]. *)
Definition strtok (nm : string) : list string := strtok_from "/" "" nm.

(* --------------------------------------------------------------------- *)
(** ** filesys.cc: the two path walks                                     *)
(* --------------------------------------------------------------------- *)

(** The loop of [FileSystem::Open] over the tokens still to come;
    [tmpName] is their head, [NULL] when there is none. *)
Fixpoint Open_while (fs : FileSystem) (directoryObj : OpenFile)
                    (tokens : list string) : OpenFile :=
  match tokens with
  | [] => directoryObj
  | tmpName :: rest =>
      let directory := Directory_FetchFrom fs directoryObj in
      let sector := Directory_Find directory tmpName in
      if sector =? -1 then directoryObj
      else Open_while fs (mkOpenFile sector) rest
  end.

(** [FileSystem::Open]; the result is an [OpenFile *], [None] for [NULL]. *)
Definition Open (fs : FileSystem) (nm : string) : option OpenFile :=
  let directoryObj := directoryFile fs in
  Some (Open_while fs directoryObj (strtok nm)).

(** The loop of [FileSystem::OpenAFile]: it leaves with [tmpName] and the
    table in [directory]. The loop also writes [lastName] and
    [directoryObj], which are never read afterwards. *)
Fixpoint OpenAFile_while (fs : FileSystem) (directory : Directory)
                         (tokens : list string) : option string * Directory :=
  match tokens with
  | [] => (None, directory)
  | tmpName :: rest =>
      let sector := Directory_Find directory tmpName in
      if sector =? -1 then (Some tmpName, directory)
      else
        let directoryObj := mkOpenFile sector in
        let directory := Directory_FetchFrom fs directoryObj in
        OpenAFile_while fs directory rest
  end.

(** [FileSystem::OpenAFile]: the id it returns and the file system after
    the call. [directory] starts as a fresh table and is not fetched before
    the loop; after the loop it is fetched from [directoryFile]. A [NULL]
    name handed to [Find] is a fault. *)
Definition OpenAFile (fs : FileSystem) (nm : string)
  : outcome (Z * FileSystem) :=
  let directory := new_Directory NumDirEntries in
  let '(tmpName, directory) := OpenAFile_while fs directory (strtok nm) in
  let directory := Directory_FetchFrom fs (directoryFile fs) in
  match tmpName with
  | None => Fault NullPointer
  | Some tmpName =>
      let sector := Directory_Find directory tmpName in
      if sector >=? 0 then
        Done (sector,
              mkFileSystem (directoryFile fs) (Some (mkOpenFile sector))
                           (tableOf fs))
      else Done (-1, fs)
  end.

(** [SysOpen] of ksyscall.h. *)
Definition SysOpen (fs : FileSystem) (nm : string) : outcome (Z * FileSystem) :=
  OpenAFile fs nm.

(* --------------------------------------------------------------------- *)
(** ** Vocabulary of the file-system claims                               *)
(* --------------------------------------------------------------------- *)

(** The path walk of the specification (section 4.3): from the directory
    whose header is in [dir], the components of [path] are found one after
    the other and lead to the header in sector [s]. *)
Inductive Reaches (fs : FileSystem) : Z -> list string -> Z -> Prop :=
  | Reaches_nil dir : Reaches fs dir [] dir
  | Reaches_cons dir c path s s' :
      Directory_Find (tableOf fs dir) c = s ->
      s <> -1 ->
      Reaches fs s path s' ->
      Reaches fs dir (c :: path) s'.

(** A component is missing from the directory in [dir]. *)
Definition Missing (fs : FileSystem) (dir : Z) (c : string) : Prop :=
  Directory_Find (tableOf fs dir) c = -1.

(* --------------------------------------------------------------------- *)
(** ** filesys.cc: the descriptor slot, [Create] and [Remove]             *)
(* --------------------------------------------------------------------- *)

(** [FileSystem::CloseFile]: the result and the file system after the call;
    [id] is not looked at. *)
Definition CloseFile (fs : FileSystem) (id : Z) : Z * FileSystem :=
  match fileDescriptor fs with
  | Some _ =>
      (1, mkFileSystem (directoryFile fs) None (tableOf fs))
  | None => (-1, fs)
  end.

(** [SysClose] of ksyscall.h. *)
Definition SysClose (fs : FileSystem) (id : Z) : Z * FileSystem :=
  CloseFile fs id.

(** Modelled from the spec: the name test of [Directory::Add] and
    [Directory::Remove], missing with directory.cc: the name is "already
    present" when an in-use entry carries it. *)
Definition Directory_has (table : Directory) (nm : string) : bool :=
  existsb (fun e => inUse e && String.eqb (name e) nm) table.

(** The table with the entry [e] in its first slot that is not in use;
    [None] when there is "no free slot". *)
Fixpoint Directory_place (table : Directory) (e : DirectoryEntry)
  : option Directory :=
  match table with
  | [] => None
  | x :: table' =>
      if inUse x then
        match Directory_place table' e with
        | Some t => Some (x :: t)
        | None => None
        end
      else Some (e :: table')
  end.

(** Modelled from the spec: [Directory::Add], missing with directory.cc:
    "fails if name already present (linear check) or no free slot. On
    success, marks slot in-use and stores (name, sector, isDir)". *)
Definition Directory_Add (table : Directory) (nm : string) (newSector : Z)
                         (isDir : bool) : bool * Directory :=
  if Directory_has table nm then (false, table)
  else
    match Directory_place table (mkDirectoryEntry true isDir newSector nm) with
    | Some t => (true, t)
    | None => (false, table)
    end.

(** Modelled from the spec: [Directory::Remove], missing with directory.cc:
    "clears the [inUse] flag; does not compact". *)
Fixpoint Directory_Remove (table : Directory) (nm : string)
  : bool * Directory :=
  match table with
  | [] => (false, [])
  | e :: table' =>
      if inUse e && String.eqb (name e) nm then
        (true, mkDirectoryEntry false (isDirectory e) (sector e) (name e)
                 :: table')
      else
        let '(found, t) := Directory_Remove table' nm in (found, e :: t)
  end.

(** Modelled from the spec: [Directory::isDirectory], missing with
    directory.cc: the [isDirectory] flag of the in-use entry of that name
    ("if found and is-directory"). *)
Fixpoint Directory_isDirectory (table : Directory) (nm : string) : bool :=
  match table with
  | [] => false
  | e :: table' =>
      if inUse e && String.eqb (name e) nm then isDirectory e
      else Directory_isDirectory table' nm
  end.

(** What [Create] and [Remove] work on: the name space, the bits kept in
    [freeMapFile] ([new PersistentBitmap(freeMapFile, NumSectors)] reads
    them, [freeMap->WriteBack(freeMapFile)] writes them), and the disk,
    each sector as [FileHeader::FetchFrom] reads it. *)
Record Volume := mkVolume {
  vol_fs : FileSystem;
  vol_map : Bitmap;
  vol_disk : Disk
}.

(** [#define FreeMapSector 0]; [freeMapFile] is kept open on it. *)
Definition FreeMapSector : Z := 0.

Definition freeMapFile : OpenFile := mkOpenFile FreeMapSector.

(** openfile.cc, directory.cc and pbitmap.cc are not among the sources.
    What a write-back of a directory table or of the bitmap puts on the
    disk is taken as a parameter: the sectors that [OpenFile::WriteAt]
    writes when a table, or for [freeMapFile] the bitmap, is written back
    to an open file (sectors recorded in the header that the file read
    when it was opened), and what such a sector reads as afterwards, taken
    for a file header. *)
Record Contents := mkContents {
  contentSectors : OpenFile -> list Z;
  tableImage : Directory -> Z -> FileHeader;
  bitmapImage : Bitmap -> Z -> FileHeader
}.

(** The disk after the write-back to [file]. *)
Definition Contents_WriteBack (ct : Contents) (file : OpenFile)
                              (image : Z -> FileHeader) (d : Disk) : Disk :=
  fun s => if bool_decide (s ∈ contentSectors ct file) then image s else d s.

(** [directory->WriteBack(file)]: the table becomes the contents of the
    file. *)
Definition Directory_WriteBack (table : Directory) (file : OpenFile)
                               (fs : FileSystem) : FileSystem :=
  mkFileSystem (directoryFile fs) (fileDescriptor fs)
    (fun s => if s =? hdrSector file then table else tableOf fs s).

(** The loop of [FileSystem::Create]: it leaves with [tmpName], the table
    in [directory] and [directoryObj]. *)
Fixpoint Create_while (fs : FileSystem) (directory : Directory)
                      (directoryObj : OpenFile) (tokens : list string)
  : option string * Directory * OpenFile :=
  match tokens with
  | [] => (None, directory, directoryObj)
  | tmpName :: rest =>
      let sector := Directory_Find directory tmpName in
      if sector =? -1 then (Some tmpName, directory, directoryObj)
      else
        let directoryObj := mkOpenFile sector in
        let directory := Directory_FetchFrom fs directoryObj in
        Create_while fs directory directoryObj rest
  end.

(** [FileSystem::Create]. The writes of [Allocate] to the disk stay
    whatever [Create] answers; the header, the table and the free map are
    written back on success only. A [NULL] name handed to [Find] is a
    fault. *)
Definition Create (g : Geometry) (ct : Contents) (fuel : nat) (v : Volume)
                  (nm : string) (initialSize : Z) : outcome (bool * Volume) :=
  let fs := vol_fs v in
  let directory := Directory_FetchFrom fs (directoryFile fs) in
  let '(tmpName, directory, directoryObj) :=
    Create_while fs directory (directoryFile fs) (strtok nm) in
  match tmpName with
  | None => Fault NullPointer
  | Some tmpName =>
      if negb (Directory_Find directory tmpName =? -1) then Done (false, v)
      else
        let '(sector, map) := Bitmap_FindAndSet (vol_map v) in
        if sector =? -1 then Done (false, v)
        else
          let '(added, directory) :=
            Directory_Add directory tmpName sector false in
          if negb added then Done (false, v)
          else
            '(ok, hdr, w) ← Allocate g fuel (new_FileHeader g)
                              (mkFS map (vol_disk v)) initialSize;
            if negb ok then Done (false, mkVolume fs (vol_map v) (disk w))
            else
              d ← WriteBack g hdr sector (disk w);
              let d := Contents_WriteBack ct directoryObj
                         (tableImage ct directory) d in
              let d := Contents_WriteBack ct freeMapFile
                         (bitmapImage ct (freeMap w)) d in
              Done (true,
                    mkVolume (Directory_WriteBack directory directoryObj fs)
                             (freeMap w) d)
  end.

(** [SysCreate] of ksyscall.h. *)
Definition SysCreate (g : Geometry) (ct : Contents) (fuel : nat) (v : Volume)
                     (nm : string) (size : Z) : outcome (bool * Volume) :=
  Create g ct fuel v nm size.

(** How the loop of [FileSystem::Remove] ends. *)
Record Remove_exit := mkRemove_exit {
  rx_tmpName : option string;
  rx_lastName : string;
  rx_sector : Z;
  rx_isFile : bool;
  rx_directoryObj : OpenFile;
  rx_prevdirectoryObj : OpenFile
}.

(** The loop of [FileSystem::Remove]; [sector] is the result of the last
    [Find]. *)
Fixpoint Remove_while (fs : FileSystem) (directory : Directory)
                      (directoryObj prevdirectoryObj : OpenFile)
                      (lastName : string) (sector : Z)
                      (tokens : list string) : Remove_exit :=
  match tokens with
  | [] =>
      mkRemove_exit None lastName sector false directoryObj prevdirectoryObj
  | tmpName :: rest =>
      let sector := Directory_Find directory tmpName in
      if (sector =? -1) || negb (Directory_isDirectory directory tmpName) then
        mkRemove_exit (Some tmpName) lastName sector true
                      directoryObj prevdirectoryObj
      else
        let prevdirectoryObj := directoryObj in
        let directoryObj := mkOpenFile sector in
        let directory := Directory_FetchFrom fs directoryObj in
        Remove_while fs directory directoryObj prevdirectoryObj tmpName
                     sector rest
  end.

(** [FileSystem::Remove]. For a path without a component the source reads
    [sector] before any assignment and hands [NULL] on: a fault. *)
Definition Remove (g : Geometry) (ct : Contents) (fuel : nat) (v : Volume)
                  (nm : string) : outcome (bool * Volume) :=
  let fs := vol_fs v in
  let directory := Directory_FetchFrom fs (directoryFile fs) in
  match strtok nm with
  | [] => Fault NullPointer
  | first :: _ =>
      let x := Remove_while fs directory (directoryFile fs) (directoryFile fs)
                            first 0 (strtok nm) in
      let tmpName :=
        match rx_tmpName x with
        | None => rx_lastName x
        | Some tmpName => tmpName
        end in
      if rx_sector x =? -1 then Done (false, v)
      else
        let file :=
          if rx_isFile x then rx_directoryObj x else rx_prevdirectoryObj x in
        let directory := Directory_FetchFrom fs file in
        let sector := Directory_Find directory tmpName in
        w ← Remove_blocks g fuel sector (mkFS (vol_map v) (vol_disk v));
        let '(_, directory) := Directory_Remove directory tmpName in
        let d := Contents_WriteBack ct freeMapFile
                   (bitmapImage ct (freeMap w)) (disk w) in
        let d := Contents_WriteBack ct file (tableImage ct directory) d in
        Done (true,
              mkVolume (Directory_WriteBack directory file fs)
                       (freeMap w) d)
  end.

(** A run that did not stop for lack of fuel. *)
Definition finished {A} (r : outcome A) : Prop := r <> OutOfFuel.

(** The free map with the bits listed in [ss] all set to [b]. *)
Definition set_bits (b : bool) (ss : list nat) (map : Bitmap) : Bitmap :=
  foldl (fun m s => <[s := b]> m) map ss.

(* --------------------------------------------------------------------- *)
(** ** Sample states                                                      *)
(* --------------------------------------------------------------------- *)

(** A kernel at tick 1500: thread 0 runs at priority 20; thread 3 waits on
    L1, thread 1 on L2 (priority 95, ready since tick 0), thread 2 on L3
    (ready since tick 1000). *)
Definition sample_threads (t : tid) : Thread :=
  match t with
  | 0%nat => mkThread 20 0 0 0 RUNNING
  | 1%nat => mkThread 95 30 0 0 READY
  | 2%nat => mkThread 30 10 1000 0 READY
  | 3%nat => mkThread 120 50 0 100 READY
  | _ => mkThread 0 0 0 0 JUST_CREATED
  end.

Definition sample_kernel : Kernel :=
  mkKernel sample_threads 1500 0%nat false [3%nat] [1%nat] [2%nat].

(** The same threads at tick 0, none of them ready. *)
Definition idle_kernel : Kernel :=
  mkKernel sample_threads 0 0%nat false [] [] [].

(** Sectors of 128 bytes, headers of (128 - 8) / 4 = 30 entries, a disk of
    1024 sectors. *)
Definition nachos : Geometry := mkGeometry 128 30 1024.

(** A disk that holds no header yet. *)
Definition blank_disk : Disk := fun _ => mkFileHeader 0 0 [].

(** Sectors 0 and 1 hold the headers of the bitmap and of the root
    directory, and sector 2 has just been claimed by [Create] for the
    header of a new file; the other 1021 sectors are free. *)
Definition roomy : FS :=
  mkFS (replicate 3 true ++ replicate 1021 false) blank_disk.

(** A disk with 32 free sectors left, the last ones. *)
Definition nearly_full : FS :=
  mkFS (replicate 992 true ++ replicate 32 false) blank_disk.

(** A root directory with the directory [a] (header in sector 5) and the
    file [g] (header in sector 7); [a] holds the file [f] (header in
    sector 9). *)
Definition root_table : Directory :=
  [mkDirectoryEntry true true 5 "a"; mkDirectoryEntry true false 7 "g"].

Definition a_table : Directory := [mkDirectoryEntry true false 9 "f"].

Definition sample_fs : FileSystem :=
  mkFileSystem (mkOpenFile DirectorySector) None
    (fun s => if s =? DirectorySector then root_table
              else if s =? 5 then a_table
              else new_Directory NumDirEntries).

(** From the state [w] to the state [w'] sectors were only claimed: the
    free map keeps its length and its marked bits, and the disk changed at
    most in sectors that were free in [w] and are marked in [w']. *)
Definition only_claims (w w' : FS) : Prop :=
  length (freeMap w') = length (freeMap w) /\
  (forall p, freeMap w !! p = Some true -> freeMap w' !! p = Some true) /\
  (forall s, ~ (0 <= s /\ freeMap w !! Z.to_nat s = Some false
                /\ freeMap w' !! Z.to_nat s = Some true) ->
             disk w' s = disk w s).

(** From [w] to [w'] sectors were only released: same disk, same length of
    the free map, no bit newly marked. *)
Definition only_releases (w w' : FS) : Prop :=
  disk w' = disk w /\
  length (freeMap w') = length (freeMap w) /\
  (forall p, freeMap w' !! p = Some true -> freeMap w !! p = Some true).

(** The table of the root directory, and a table with a slot to spare. *)
Definition rootOf (fs : FileSystem) : Directory :=
  Directory_FetchFrom fs (directoryFile fs).

Definition Directory_has_room (table : Directory) : bool :=
  existsb (fun e => negb (inUse e)) table.

(** The contents of an open file are in sectors that the free map has
    marked. *)
Definition contents_marked (ct : Contents) (file : OpenFile) (map : Bitmap)
  : Prop :=
  forall s, s ∈ contentSectors ct file ->
            0 <= s /\ map !! Z.to_nat s = Some true.

(** A kernel at tick 1500: thread 0 runs; threads 1 and 2, both of
    priority 10 and ready since tick 0, wait on L3. *)
Definition stale_threads (t : tid) : Thread :=
  match t with
  | 0%nat => mkThread 20 0 0 0 RUNNING
  | 1%nat => mkThread 10 5 0 0 READY
  | 2%nat => mkThread 10 5 0 0 READY
  | _ => mkThread 0 0 0 0 JUST_CREATED
  end.

Definition stale_kernel : Kernel :=
  mkKernel stale_threads 1500 0%nat false [] [] [1%nat; 2%nat].

(** A kernel at tick 3000: thread 0 runs; threads 3 and 4, with the same
    predicted burst, wait on L1 and thread 1, of priority 95 and a shorter
    predicted burst, on L2; all three are ready since tick 0. *)
Definition queued_threads (t : tid) : Thread :=
  match t with
  | 0%nat => mkThread 120 40 0 0 RUNNING
  | 1%nat => mkThread 95 10 0 0 READY
  | 3%nat => mkThread 120 30 0 0 READY
  | 4%nat => mkThread 110 30 0 0 READY
  | _ => mkThread 0 0 0 0 JUST_CREATED
  end.

Definition queued_kernel : Kernel :=
  mkKernel queued_threads 3000 0%nat false [3%nat; 4%nat] [1%nat] [].

(** A kernel at tick 2000 with more than one thread per list: thread 0
    runs at priority 120 with a predicted burst of 40; threads 1 and 2
    wait on L1 (predicted bursts 10 and 25), threads 3 and 4 on L2
    (priorities 90 and 60; thread 3 is ready since tick 400), thread 5 on
    L3. Thread 6, of priority 150, is in no list. *)
Definition crowded_threads (t : tid) : Thread :=
  match t with
  | 0%nat => mkThread 120 40 0 0 RUNNING
  | 1%nat => mkThread 110 10 1900 0 READY
  | 2%nat => mkThread 130 25 1900 0 READY
  | 3%nat => mkThread 90 5 400 0 READY
  | 4%nat => mkThread 60 5 1900 0 READY
  | 5%nat => mkThread 10 5 1900 0 READY
  | 6%nat => mkThread 150 5 0 0 JUST_CREATED
  | _ => mkThread 0 0 0 0 JUST_CREATED
  end.

Definition crowded_kernel : Kernel :=
  mkKernel crowded_threads 2000 0%nat false
           [1%nat; 2%nat] [3%nat; 4%nat] [5%nat].

(** The header and the state that [Allocate] leaves for a file of 500
    bytes on the roomy disk: sectors 3 to 6 hold the data. *)
Definition header_500 : FileHeader :=
  mkFileHeader 500 4 ([3; 4; 5; 6] ++ replicate 26 (-1)).

Definition roomy_500 : FS :=
  mkFS (replicate 7 true ++ replicate 1017 false) blank_disk.

(** A volume with the name space of [sample_fs] in tables of 64 entries:
    the headers of the bitmap, the root directory, [a], [g] and [f] are in
    sectors 0, 1, 5, 7 and 9; the bitmap is kept in sector 2, the table of
    the root directory in sectors 3 and 4 and the table of [a] in sector
    6; no other sector is in use. *)
Definition unused_entry : DirectoryEntry := mkDirectoryEntry false false 0 "".

Definition sample_volume : Volume :=
  mkVolume
    (mkFileSystem (mkOpenFile DirectorySector) None
       (fun s => if s =? DirectorySector
                 then root_table ++ replicate 62 unused_entry
                 else if s =? 5 then a_table ++ replicate 63 unused_entry
                 else new_Directory NumDirEntries))
    (set_bits true [0; 1; 2; 3; 4; 5; 6; 7; 9]%nat (replicate 1024 false))
    blank_disk.

(** The contents of its open files; a sector of a table reads as a header
    of as many bytes as the table has entries in use, a sector of the
    bitmap as one of as many bytes as there are free sectors. *)
Definition sample_contents : Contents :=
  mkContents
    (fun file => if hdrSector file =? FreeMapSector then [2]
                 else if hdrSector file =? DirectorySector then [3; 4]
                 else if hdrSector file =? 5 then [6]
                 else [])
    (fun table _ =>
       mkFileHeader (Z.of_nat (length (filter (fun e => inUse e = true) table)))
                    0 [])
    (fun map _ => mkFileHeader (Bitmap_NumClear map) 0 []).

(** The same name space on a disk with 32 free sectors. *)
Definition full_volume : Volume :=
  mkVolume (vol_fs sample_volume) (freeMap nearly_full) blank_disk.
(* ===================================================================== *)
(** * Part II. Theorems                                                   *)
(* ===================================================================== *)

(* --------------------------------------------------------------------- *)
(** ** Lists                                                              *)
(* --------------------------------------------------------------------- *)

Lemma elem_of_SortedList_Insert {T} (c : T -> T -> Z) (x t : T) (l : list T) :
  x ∈ SortedList_Insert c t l <-> x = t \/ x ∈ l.
Proof.
  induction l as [|y l IH]; simpl.
  - set_solver.
  - destruct (c t y <? 0); set_solver.
Qed.

Lemma NoDup_SortedList_Insert {T} (c : T -> T -> Z) (t : T) (l : list T) :
  t ∉ l -> NoDup l -> NoDup (SortedList_Insert c t l).
Proof.
  induction l as [|y l IH]; simpl; intros Hnin Hnd.
  - apply NoDup_singleton.
  - destruct (c t y <? 0).
    + by apply NoDup_cons.
    + apply NoDup_cons in Hnd as [Hy Hnd].
      apply NoDup_cons. split.
      * rewrite elem_of_SortedList_Insert. set_solver.
      * apply IH; [set_solver | done].
Qed.

Lemma elem_of_List_Remove_sub (t x : tid) (l : list tid) :
  x ∈ List_Remove t l -> x ∈ l.
Proof.
  induction l as [|y l IH]; simpl; [done|].
  destruct (Nat.eqb t y); set_solver.
Qed.

Lemma NoDup_List_Remove (t : tid) (l : list tid) :
  NoDup l -> NoDup (List_Remove t l).
Proof.
  induction l as [|y l IH]; simpl; [done|].
  intros [Hy Hnd]%NoDup_cons.
  destruct (Nat.eqb t y); [done|].
  apply NoDup_cons. split; [|by apply IH].
  intros Hin. by apply Hy, (elem_of_List_Remove_sub t).
Qed.

Lemma elem_of_List_Remove (t x : tid) (l : list tid) :
  NoDup l -> x ∈ List_Remove t l <-> x ∈ l /\ x <> t.
Proof.
  induction l as [|y l IH]; simpl; [set_solver|].
  intros [Hy Hnd]%NoDup_cons.
  destruct (Nat.eqb_spec t y) as [->|Hne].
  - set_solver.
  - rewrite !elem_of_cons, IH by done. naive_solver.
Qed.

Lemma elem_of_List_Append {T} (x t : T) (l : list T) :
  x ∈ List_Append t l <-> x = t \/ x ∈ l.
Proof. unfold List_Append. set_solver. Qed.

Lemma NoDup_List_Append {T} (t : T) (l : list T) :
  t ∉ l -> NoDup l -> NoDup (List_Append t l).
Proof.
  intros Hnin Hnd. unfold List_Append.
  apply NoDup_app. split_and!; [done | set_solver | apply NoDup_singleton].
Qed.

(* --------------------------------------------------------------------- *)
(** ** Priority bands and the ready-queue invariant                       *)
(* --------------------------------------------------------------------- *)

Lemma inBand_inj q q' p : inBand q p -> inBand q' p -> q = q'.
Proof. destruct q, q'; simpl; intros; try done; lia. Qed.

Lemma inBand_bandOf q p : inBand q p -> bandOf p = q.
Proof.
  unfold bandOf. destruct q; simpl; intros;
    repeat case_match; try done; lia.
Qed.

Lemma bandOf_inBand p : 0 <= p <= 149 -> inBand (bandOf p) p.
Proof. unfold bandOf. intros. repeat case_match; simpl; lia. Qed.

Lemma ReadyInv_alt k :
  ReadyInv k <->
  (forall q, NoDup (getq q k)) /\
  (forall q t, t ∈ getq q k -> inBand q (priority (threads k t))).
Proof.
  unfold ReadyInv, ready. split.
  - intros [Hnd Hb]. split; [|done].
    apply NoDup_app in Hnd as (H1 & _ & [H2 [_ H3]]%NoDup_app).
    by intros [].
  - intros [Hnd Hb]. split; [|done].
    apply NoDup_app. split_and!; [apply (Hnd Q1) | | ].
    + intros x Hx [Hx'|Hx']%elem_of_app.
      * pose proof (inBand_inj _ _ _ (Hb Q1 x Hx) (Hb Q2 x Hx')). done.
      * pose proof (inBand_inj _ _ _ (Hb Q1 x Hx) (Hb Q3 x Hx')). done.
    + apply NoDup_app. split_and!; [apply (Hnd Q2) | | apply (Hnd Q3)].
      intros x Hx Hx'.
      pose proof (inBand_inj _ _ _ (Hb Q2 x Hx) (Hb Q3 x Hx')). done.
Qed.

Lemma ReadyInv_one_queue k q q' t :
  ReadyInv k -> t ∈ getq q k -> t ∈ getq q' k -> q = q'.
Proof. intros [_ Hb] H1 H2. eapply inBand_inj; eauto. Qed.

Lemma due_test now th :
  ((priority th >=? 0) && (priority th <? 150))
    && (now - ReadyStartTime th + TimeInReadyQueue th >=? 1500) = true
  <-> due now th.
Proof. unfold due, waited. rewrite !andb_true_iff. lia. Qed.

Lemma aging_priority_min p :
  (if p + 10 >? 149 then 149 else p + 10) = Z.min 149 (p + 10).
Proof. destruct (Z.gtb_spec (p + 10) 149); lia. Qed.

Lemma aging_body_not_due q k t :
  ~ due (totalTicks k) (threads k t) -> aging_body q k t = k.
Proof.
  intros Hnd. unfold aging_body.
  destruct (_ && _) eqn:E; [|done].
  by apply due_test in E.
Qed.

Lemma getq_setq q q' l k :
  getq q' (setq q l k) = if decide (q' = q) then l else getq q' k.
Proof. destruct q, q'; reflexivity. Qed.


Lemma aging_body_unfold q k t :
  due (totalTicks k) (threads k t) ->
  aging_body q k t =
  aging_requeue t
    (setq q (List_Remove t (getq q k))
       (set_thread t (aged (totalTicks k) (threads k t)) k)).
Proof.
  intros Hdue%due_test. unfold aging_body. rewrite Hdue.
  rewrite aging_priority_min. reflexivity.
Qed.

Lemma aging_requeue_frame t k :
  threads (aging_requeue t k) = threads k /\
  totalTicks (aging_requeue t k) = totalTicks k /\
  currentThread (aging_requeue t k) = currentThread k.
Proof.
  unfold aging_requeue, L1_Insert, L2_Insert, L3_Append.
  repeat case_match; done.
Qed.

Lemma aging_requeue_elem t k x q' :
  x ∈ getq q' (aging_requeue t k) <->
  (x = t /\ q' = bandOf (priority (threads k t))) \/ x ∈ getq q' k.
Proof.
  unfold aging_requeue, L1_Insert, L2_Insert, L3_Append, bandOf.
  destruct (Z.geb_spec (priority (threads k t)) 100);
  [|destruct (Z.geb_spec (priority (threads k t)) 50)];
  repeat case_match; try lia; destruct q'; simpl;
  rewrite ?elem_of_SortedList_Insert, ?elem_of_List_Append; naive_solver.
Qed.

Lemma aging_requeue_NoDup t k q' :
  t ∉ getq q' k -> NoDup (getq q' k) -> NoDup (getq q' (aging_requeue t k)).
Proof.
  unfold aging_requeue, L1_Insert, L2_Insert, L3_Append.
  intros Hnin Hnd.
  repeat case_match; destruct q'; simpl in *;
    auto using NoDup_SortedList_Insert, NoDup_List_Append.
Qed.

Lemma aging_body_step q k t :
  ReadyInv k -> t ∈ getq q k ->
  let k' := aging_body q k t in
  ReadyInv k' /\
  (forall x, threads k' x =
             if Nat.eqb x t then after_aging (totalTicks k) (threads k t)
             else threads k x) /\
  totalTicks k' = totalTicks k /\
  currentThread k' = currentThread k /\
  (forall x q', x <> t -> x ∈ getq q' k' <-> x ∈ getq q' k) /\
  t ∈ getq (bandOf (priority (threads k' t))) k'.
Proof.
  intros Hinv Hin. cbv zeta. unfold after_aging.
  destruct (decide (due (totalTicks k) (threads k t))) as [Hdue|Hndue].
  2:{ rewrite aging_body_not_due by done. split_and!; try done.
      - intros x. destruct (Nat.eqb_spec x t); by subst.
      - destruct Hinv as [_ Hb]. by rewrite (inBand_bandOf q) by auto. }
  rewrite aging_body_unfold by done.
  set (th' := aged (totalTicks k) (threads k t)).
  set (k2 := setq q (List_Remove t (getq q k)) (set_thread t th' k)).
  destruct (aging_requeue_frame t k2) as (Hth & Htk & Hcur).
  assert (Hth2 : forall x, threads k2 x = if Nat.eqb x t then th' else threads k x).
  { intros x. unfold k2. by destruct q. }
  assert (Hq2 : forall q', getq q' k2 =
            if decide (q' = q) then List_Remove t (getq q k) else getq q' k).
  { intros q'. unfold k2. rewrite getq_setq. by destruct q, q'. }
  apply ReadyInv_alt in Hinv as Halt. destruct Halt as [Hnd Hb].
  assert (Hnt : forall q', t ∉ getq q' k2).
  { intros q'. rewrite Hq2. case_decide as Hq.
    - rewrite elem_of_List_Remove by done. naive_solver.
    - intros Hin'. by pose proof (ReadyInv_one_queue _ _ _ _ Hinv Hin Hin'). }
  assert (Hsub : forall x q', x ∈ getq q' k2 <-> x ∈ getq q' k /\ x <> t).
  { intros x q'. split.
    - intros Hx. split; [|intros ->; by apply (Hnt q')].
      rewrite Hq2 in Hx. case_decide; subst; [|done].
      by apply elem_of_List_Remove in Hx as [? ?].
    - intros [Hx Hne]. rewrite Hq2. case_decide; subst; [|done].
      by apply elem_of_List_Remove. }
  assert (Hpt : threads k2 t = th').
  { by rewrite Hth2, Nat.eqb_refl. }
  split_and!.
  - apply ReadyInv_alt. split.
    + intros q'. apply aging_requeue_NoDup; [done|].
      rewrite Hq2. case_decide; [by apply NoDup_List_Remove | done].
    + intros q' x [[-> ->]|Hx]%aging_requeue_elem.
      * rewrite Hth. apply bandOf_inBand. rewrite Hpt. simpl.
        destruct Hdue as [? _]. lia.
      * apply Hsub in Hx as [Hx Hne]. rewrite Hth, Hth2.
        destruct (Nat.eqb_spec x t); [done|]. by apply Hb.
  - intros x. by rewrite Hth, Hth2.
  - rewrite Htk. unfold k2. by destruct q.
  - rewrite Hcur. unfold k2. by destruct q.
  - intros x q' Hne. rewrite aging_requeue_elem, Hsub. naive_solver.
  - rewrite Hth. apply aging_requeue_elem. by left.
Qed.

Lemma elem_of_ready k t : t ∈ ready k <-> exists q, t ∈ getq q k.
Proof.
  unfold ready. rewrite !elem_of_app. split.
  - intros [H|[H|H]]; [by exists Q1 | by exists Q2 | by exists Q3].
  - intros [[] H]; simpl in H; auto.
Qed.

(* --------------------------------------------------------------------- *)
(** ** The loop of the aging pass                                         *)
(* --------------------------------------------------------------------- *)

Lemma List_IsInList_spec (t : tid) (l : list tid) :
  List_IsInList t l = true <-> t ∈ l.
Proof.
  unfold List_IsInList. rewrite existsb_exists. split.
  - intros (x & Hx & ->%Nat.eqb_eq). by apply list_elem_of_In.
  - intros Hin. exists t. split; [by apply list_elem_of_In|].
    apply Nat.eqb_refl.
Qed.

Lemma aging_test_due (k : Kernel) (t : tid) :
  aging_test k t = true <-> due (totalTicks k) (threads k t).
Proof. apply due_test. Qed.

Lemma aging_for_unfold fuel q t behind k :
  aging_for (S fuel) q (t :: behind) k =
  if aging_test k t then
    if List_IsInList t (getq q k) then
      aging_for fuel q (aging_behind (aging_take q k t) t) (aging_body q k t)
    else Fault AssertionFailed
  else aging_for fuel q behind k.
Proof. reflexivity. Qed.

(** What a pass that ends keeps, step by step. *)
Lemma aging_for_invariant (P : Kernel -> Prop) (q : QueueId) :
  (forall k t, P k -> due (totalTicks k) (threads k t) -> t ∈ getq q k ->
               P (aging_body q k t)) ->
  forall fuel items k k',
    P k -> aging_for fuel q items k = Done k' -> P k'.
Proof.
  intros Hstep. induction fuel as [|fuel IH]; intros items k k' HP.
  - destruct items; simpl; [by intros [= <-] | done].
  - destruct items as [|t behind]; [by intros [= <-]|].
    rewrite aging_for_unfold.
    destruct (aging_test k t) eqn:Et; [|by apply IH].
    destruct (List_IsInList t (getq q k)) eqn:Ein; [|done].
    apply IH, Hstep; [done | by apply aging_test_due | by apply List_IsInList_spec].
Qed.

Lemma bind_Done_inv {A B} (m : outcome A) (k : A -> outcome B) b :
  m ≫= k = Done b -> exists a, m = Done a /\ k a = Done b.
Proof. destruct m; simpl; [eauto | done | done]. Qed.

Lemma agingCheck_invariant (P : Kernel -> Prop) :
  (forall q k t, P k -> due (totalTicks k) (threads k t) -> t ∈ getq q k ->
                 P (aging_body q k t)) ->
  forall fuel k k', P k -> agingCheck fuel k = Done k' -> P k'.
Proof.
  intros Hstep fuel k k' HP. unfold agingCheck, aging.
  intros (k1 & H1 & (k2 & H2 & H3)%bind_Done_inv)%bind_Done_inv.
  eapply (aging_for_invariant P Q3); [by eauto | | exact H3].
  eapply (aging_for_invariant P Q2); [by eauto | | exact H2].
  eapply (aging_for_invariant P Q1); [by eauto | exact HP | exact H1].
Qed.

(* --------------------------------------------------------------------- *)
(** ** The aging pass ends                                                *)
(* --------------------------------------------------------------------- *)

Lemma List_Remove_perm (t : tid) (l : list tid) :
  t ∈ l -> l ≡ₚ t :: List_Remove t l.
Proof.
  induction l as [|y l IH]; simpl; [by intros ?%elem_of_nil|].
  destruct (Nat.eqb_spec t y) as [->|Hne]; [done|].
  intros [?|Hin]%elem_of_cons; [done|].
  rewrite (IH Hin) at 1. apply Permutation_swap.
Qed.

Lemma SortedList_Insert_perm {T} (c : T -> T -> Z) (t : T) (l : list T) :
  SortedList_Insert c t l ≡ₚ t :: l.
Proof.
  induction l as [|y l IH]; simpl; [done|].
  destruct (c t y <? 0); [done|]. rewrite IH. apply Permutation_swap.
Qed.

Lemma SortedList_behind_length {T} (c : T -> T -> Z) (t : T) (l : list T) :
  (length (SortedList_behind c t l) <= length l)%nat.
Proof.
  induction l as [|y l IH]; simpl; [done|].
  destruct (c t y <? 0); simpl; lia.
Qed.

Lemma aging_body_take q k t :
  aging_body q k t =
  if aging_test k t then aging_requeue t (aging_take q k t) else k.
Proof. reflexivity. Qed.

Lemma ready_aging_take q k t :
  t ∈ getq q k -> ready k ≡ₚ t :: ready (aging_take q k t).
Proof.
  intros Hin. unfold ready, aging_take.
  destruct q; simpl in *.
  - by rewrite (List_Remove_perm t (L1 k)) at 1.
  - rewrite (List_Remove_perm t (L2 k) Hin) at 1. simpl.
    symmetry. apply Permutation_middle.
  - rewrite (List_Remove_perm t (L3 k) Hin) at 1.
    rewrite app_assoc. rewrite (app_assoc (L1 k)).
    symmetry. apply Permutation_middle.
Qed.

Lemma ready_aging_requeue t k : ready (aging_requeue t k) ≡ₚ t :: ready k.
Proof.
  unfold ready, aging_requeue, L1_Insert, L2_Insert, L3_Append, List_Append.
  repeat case_match; simpl; rewrite ?SortedList_Insert_perm; try done.
  - simpl. symmetry. apply Permutation_middle.
  - simpl. symmetry. apply Permutation_middle.
  - rewrite !app_assoc. symmetry. apply Permutation_cons_append.
Qed.

Lemma ready_aging_body q k t :
  t ∈ getq q k -> ready (aging_body q k t) ≡ₚ ready k.
Proof.
  intros Hin. rewrite aging_body_take. destruct (aging_test k t); [|done].
  by rewrite ready_aging_requeue, <- ready_aging_take.
Qed.

Lemma sum_list_with_decrease {A} (f f' : A -> nat) (t : A) (l : list A) :
  (forall x, x ∈ l -> f' x <= f x)%nat -> t ∈ l -> (f' t < f t)%nat ->
  (sum_list_with f' l < sum_list_with f l)%nat.
Proof.
  induction l as [|y l IH]; simpl; intros Hle Hin Hlt.
  - by apply elem_of_nil in Hin.
  - assert (Hy : (f' y <= f y)%nat) by (apply Hle; set_solver).
    assert (Hl : (sum_list_with f' l <= sum_list_with f l)%nat).
    { clear -Hle. induction l as [|z l IHl]; simpl; [done|].
      assert (f' z <= f z)%nat by (apply Hle; set_solver).
      assert (sum_list_with f' l <= sum_list_with f l)%nat; [|lia].
      apply IHl. intros x Hx. apply Hle. set_solver. }
    apply elem_of_cons in Hin as [->|Hin]; [lia|].
    assert (sum_list_with f' l < sum_list_with f l)%nat; [|lia].
    apply IH; [|done|done]. intros x Hx. apply Hle. set_solver.
Qed.

Lemma aging_body_frame_ticks q k t :
  totalTicks (aging_body q k t) = totalTicks k.
Proof.
  rewrite aging_body_take. destruct (aging_test k t); [|done].
  destruct (aging_requeue_frame t (aging_take q k t)) as (_ & -> & _).
  unfold aging_take. by destruct q.
Qed.

Lemma aging_body_threads q k t x :
  due (totalTicks k) (threads k t) ->
  threads (aging_body q k t) x =
  if Nat.eqb x t then aged (totalTicks k) (threads k t) else threads k x.
Proof.
  intros Hdue. rewrite aging_body_unfold by done.
  destruct (aging_requeue_frame t
              (setq q (List_Remove t (getq q k))
                 (set_thread t (aged (totalTicks k) (threads k t)) k)))
    as (-> & _ & _).
  by destruct q.
Qed.

Lemma promotions_left_step q k t :
  due (totalTicks k) (threads k t) -> t ∈ getq q k ->
  (promotions_left (aging_body q k t) < promotions_left k)%nat /\
  length (ready (aging_body q k t)) = length (ready k).
Proof.
  intros Hdue Hin. pose proof (ready_aging_body q k t Hin) as Hperm.
  split; [|by rewrite Hperm].
  unfold promotions_left. rewrite Hperm, aging_body_frame_ticks.
  assert (Hw : 1500 <= waited (totalTicks k) (threads k t)) by apply Hdue.
  assert (Ht : waited (totalTicks k) (aged (totalTicks k) (threads k t))
               = waited (totalTicks k) (threads k t) - 1500).
  { unfold aged, waited at 1. cbn [ReadyStartTime TimeInReadyQueue]. lia. }
  apply (sum_list_with_decrease _ _ t).
  - intros x _. rewrite aging_body_threads by done.
    destruct (Nat.eqb_spec x t) as [->|]; [|done].
    rewrite Ht. apply Z2Nat.inj_le; [| |];
      try (apply Z.div_pos; lia).
    apply Z.div_le_mono; lia.
  - apply elem_of_ready. eauto.
  - rewrite aging_body_threads, Nat.eqb_refl, Ht by done.
    replace (waited (totalTicks k) (threads k t))
      with ((waited (totalTicks k) (threads k t) - 1500) + 1 * 1500) at 2
      by lia.
    rewrite Z.div_add by lia.
    assert (0 <= (waited (totalTicks k) (threads k t) - 1500) `div` 1500)
      by (apply Z.div_pos; lia).
    lia.
Qed.

Lemma aging_behind_length q k t :
  t ∈ getq q k ->
  (length (aging_behind (aging_take q k t) t) < length (ready k))%nat.
Proof.
  intros Hin. rewrite (ready_aging_take q k t Hin). simpl.
  unfold aging_behind, ready.
  repeat case_match; simpl; rewrite ?length_app;
    try (pose proof (SortedList_behind_length
                       (cmp_of Timecmp (aging_take q k t)) t
                       (L1 (aging_take q k t))));
    try (pose proof (SortedList_behind_length
                       (cmp_of Pricmp (aging_take q k t)) t
                       (L2 (aging_take q k t))));
    lia.
Qed.

Lemma aging_for_ends q : forall fuel items k,
  (length items <= length (ready k))%nat ->
  (promotions_left k * S (length (ready k)) + length items < fuel)%nat ->
  aging_for fuel q items k <> OutOfFuel.
Proof.
  induction fuel as [|fuel IH]; intros items k Hlen Hfuel; [lia|].
  destruct items as [|t behind]; [done|].
  rewrite aging_for_unfold. simpl in Hlen, Hfuel.
  destruct (aging_test k t) eqn:Et.
  - destruct (List_IsInList t (getq q k)) eqn:Ein; [|done].
    apply aging_test_due in Et. apply List_IsInList_spec in Ein.
    destruct (promotions_left_step q k t Et Ein) as [Hless Hsame].
    pose proof (aging_behind_length q k t Ein) as Hbehind.
    apply IH; rewrite Hsame; [lia|]. nia.
  - apply IH; lia.
Qed.

Lemma aging_ends fuel q k :
  (aging_fuel k <= fuel)%nat -> aging fuel q k <> OutOfFuel.
Proof.
  intros Hfuel. unfold aging. apply aging_for_ends.
  - unfold ready. destruct q; simpl; rewrite !length_app; lia.
  - unfold aging_fuel in Hfuel.
    assert (length (getq q k) <= length (ready k))%nat; [|lia].
    unfold ready. destruct q; simpl; rewrite !length_app; lia.
Qed.

Lemma aging_fuel_kept fuel q k k' :
  aging fuel q k = Done k' -> (aging_fuel k' <= aging_fuel k)%nat.
Proof.
  intros H.
  apply (aging_for_invariant
           (fun k' => (promotions_left k' <= promotions_left k)%nat /\
                      length (ready k') = length (ready k)) q) in H.
  - destruct H as [Hp Hl]. unfold aging_fuel. rewrite Hl. nia.
  - intros k1 t [Hp Hl] Hdue Hin.
    destruct (promotions_left_step q k1 t Hdue Hin) as [Hless Hsame].
    split; [lia | congruence].
  - done.
Qed.

Lemma agingCheck_ends fuel k :
  (aging_fuel k <= fuel)%nat -> agingCheck fuel k <> OutOfFuel.
Proof.
  intros Hfuel. unfold agingCheck.
  pose proof (aging_ends fuel Q1 k Hfuel) as H1.
  destruct (aging fuel Q1 k) as [k1| |] eqn:E1; [|done|done]. simpl.
  pose proof (aging_fuel_kept _ _ _ _ E1) as Hk1.
  pose proof (aging_ends fuel Q2 k1 ltac:(lia)) as H2.
  destruct (aging fuel Q2 k1) as [k2| |] eqn:E2; [|done|done]. simpl.
  pose proof (aging_fuel_kept _ _ _ _ E2) as Hk2.
  apply aging_ends. lia.
Qed.

(** Claim C3, at a failing input. At tick 1500 threads 1 and 2 wait on L3,
    both of priority 10 and ready since tick 0, so both have waited 1500
    ticks. The aging tick promotes thread 1 to priority 20 and appends it
    to L3 again, behind thread 2; the iterator, left on the element of
    thread 1, finds no item behind it and the pass ends: thread 2 keeps
    its priority and its waiting time. *)
Theorem aging_tick_skips_thread_behind_promoted :
  ReadyInv stale_kernel /\
  2%nat ∈ L3 stale_kernel /\
  due (totalTicks stale_kernel) (threads stale_kernel 2%nat) /\
  exists k',
    agingCheck (aging_fuel stale_kernel) stale_kernel = Done k' /\
    priority (threads k' 1%nat) = 20 /\
    L3 k' = [2%nat; 1%nat] /\
    threads k' 2%nat = threads stale_kernel 2%nat.
Proof.
  split_and!.
  - split.
    + unfold ready. simpl.
      repeat (apply NoDup_cons; split; [set_solver|]). apply NoDup_nil_2.
    + intros [] t Ht; simpl in Ht;
        repeat (apply elem_of_cons in Ht as [->|Ht]; [simpl; lia|]);
        by apply elem_of_nil in Ht.
  - simpl. set_solver.
  - unfold due, waited. simpl. lia.
  - eexists. split; [vm_compute; reflexivity|]. done.
Qed.

(** The same defect on L1 and L2. At tick 3000 the pass over L1 promotes
    thread 3 and puts it behind thread 4, which it skips; the pass over L2
    promotes thread 1 into L1, in front of thread 4, goes on with thread 4
    and stops in [list->Remove], as thread 4 is not on L2. *)
Example aging_tick_stops_at_assertion :
  agingCheck (aging_fuel queued_kernel) queued_kernel = Fault AssertionFailed.
Proof. vm_compute. reflexivity. Qed.

Lemma ReadyInv_where k t q :
  ReadyInv k -> t ∈ getq (bandOf (priority (threads k t))) k ->
  t ∈ getq q k <-> q = bandOf (priority (threads k t)).
Proof.
  intros Hinv Hin. split; [|by intros ->].
  intros H. eapply ReadyInv_one_queue; eauto.
Qed.

Lemma aging_requeue_preemptive t k :
  let k' := aging_requeue t k in
  let cur := threads k (currentThread k) in
  preemptive k' =
  match bandOf (priority (threads k t)) with
  | Q1 => preemptive k
          || ((priority cur <? 100)
              || ((100 <=? priority cur)
                  && (predictTime (threads k t) <? predictTime cur)))
  | Q2 => preemptive k || (priority cur <? 50)
  | Q3 => preemptive k
  end.
Proof.
  cbv zeta. unfold aging_requeue, bandOf, L1_Insert, L2_Insert, L3_Append.
  rewrite !Z.geb_leb, Z.gtb_ltb.
  destruct (100 <=? priority (threads k t)); simpl.
  - destruct (_ <? 100); simpl; [by rewrite orb_true_r|].
    destruct (_ && _); simpl; [by rewrite orb_true_r | by rewrite orb_false_r].
  - destruct (50 <=? priority (threads k t)); simpl; [|done].
    destruct (_ <? 50); simpl; [by rewrite orb_true_r | by rewrite orb_false_r].
Qed.

(** Claim C7. When the loop body of [aging] promotes [t]: if [t] lands on
    L1 the preemption flag is raised when the running thread has priority
    below 100, or has priority at least 100 and a longer predicted burst
    than [t]; if [t] lands on L2 the flag is raised when the running thread
    has priority below 50; otherwise the flag keeps its value. *)
Theorem aging_promotion_sets_preemption (q : QueueId) (k : Kernel) (t : tid) :
  ReadyInv k -> t ∈ getq q k -> due (totalTicks k) (threads k t) ->
  let k' := aging_body q k t in
  let cur := threads k' (currentThread k') in
  (t ∈ L1 k' ->
     preemptive k' =
     preemptive k
     || ((priority cur <? 100)
         || ((100 <=? priority cur)
             && (predictTime (threads k' t) <? predictTime cur)))) /\
  (t ∈ L2 k' -> preemptive k' = preemptive k || (priority cur <? 50)) /\
  (t ∈ L3 k' -> preemptive k' = preemptive k).
Proof.
  intros Hinv Hin Hdue. cbv zeta.
  destruct (aging_body_step q k t Hinv Hin) as (Hinv' & _ & _ & _ & _ & Hdest).
  pose proof (fun q' => ReadyInv_where _ t q' Hinv' Hdest) as Hwhere.
  revert Hwhere. rewrite aging_body_unfold by done.
  set (k2 := setq q _ _).
  destruct (aging_requeue_frame t k2) as (Hth & _ & Hcur).
  rewrite aging_requeue_preemptive, Hth, Hcur.
  replace (preemptive k2) with (preemptive k) by (unfold k2; by destruct q).
  intros Hwhere. split_and!; intros H.
  - apply (Hwhere Q1) in H. by rewrite <- H.
  - apply (Hwhere Q2) in H. by rewrite <- H.
  - apply (Hwhere Q3) in H. by rewrite <- H.
Qed.

Lemma ReadyToRun_spec (k : Kernel) (t : tid) :
  let p := priority (threads k t) in
  let k' := ReadyToRun t k in
  0 <= p <= 149 ->
  (forall x, threads k' x =
     if Nat.eqb x t
     then mkThread p (predictTime (threads k t)) (totalTicks k)
                   (TimeInReadyQueue (threads k t)) READY
     else threads k x) /\
  (forall x q, x ∈ getq q k' <-> (x = t /\ q = bandOf p) \/ x ∈ getq q k) /\
  (forall q, t ∉ getq q k -> NoDup (getq q k) -> NoDup (getq q k')).
Proof.
  cbv zeta. intros Hp.
  unfold ReadyToRun, bandOf, L1_Insert, L2_Insert, L3_Append. simpl.
  rewrite !Z.geb_leb.
  destruct (Z.leb_spec 100 (priority (threads k t)));
    [|destruct (Z.leb_spec 50 (priority (threads k t)))];
    repeat (case_match; try lia); simpl.
  all: split_and!; [done | |].
  all: try (intros x []; simpl;
            rewrite ?elem_of_SortedList_Insert, ?elem_of_List_Append;
            naive_solver).
  all: intros []; simpl;
       auto using NoDup_SortedList_Insert, NoDup_List_Append.
Qed.

(** Claim C8. The ready-queue invariant (every ready thread on exactly one
    of L1, L2, L3, once, and on the list of its priority band) is kept by
    [ReadyToRun] of a thread with priority in [0,149] that is not ready
    yet, which lands on the list of its band, and it holds after every
    aging pass over a list and after every aging tick ([agingCheck]). With
    fuel [aging_fuel] a pass does not run out of fuel: it ends, or stops at
    the assertion of [list->Remove]. *)
Theorem ready_queues_follow_priority_bands (k : Kernel) :
  ReadyInv k ->
  (forall t, t ∉ ready k -> 0 <= priority (threads k t) <= 149 ->
     ReadyInv (ReadyToRun t k) /\
     forall q, t ∈ getq q (ReadyToRun t k)
               <-> q = bandOf (priority (threads (ReadyToRun t k) t))) /\
  (forall fuel q k', aging fuel q k = Done k' -> ReadyInv k') /\
  (forall fuel k', agingCheck fuel k = Done k' -> ReadyInv k') /\
  (forall fuel, (aging_fuel k <= fuel)%nat ->
     (forall q, aging fuel q k <> OutOfFuel) /\
     agingCheck fuel k <> OutOfFuel).
Proof.
  intros Hinv.
  assert (Hstep : forall q k t,
            ReadyInv k -> due (totalTicks k) (threads k t) -> t ∈ getq q k ->
            ReadyInv (aging_body q k t)).
  { intros q k1 t H1 _ Hin. by apply aging_body_step. }
  split_and!.
  2:{ intros fuel q k'. apply (aging_for_invariant ReadyInv q); [|done].
      apply Hstep. }
  2:{ intros fuel k'. by apply (agingCheck_invariant ReadyInv). }
  2:{ intros fuel Hfuel. split; [intros q; by apply aging_ends|].
      by apply agingCheck_ends. }
  intros t Hnr Hp.
  destruct (ReadyToRun_spec k t Hp) as (Hth & Hmem & Hnd).
  assert (Hno : forall q, t ∉ getq q k).
  { intros q H. apply Hnr, elem_of_ready. eauto. }
  apply ReadyInv_alt in Hinv as [Hnd0 Hb0].
  assert (Hpt : priority (threads (ReadyToRun t k) t) = priority (threads k t)).
  { by rewrite Hth, Nat.eqb_refl. }
  split.
  - apply ReadyInv_alt. split; [by auto|].
    intros q x [[-> ->]|Hx]%Hmem.
    + rewrite Hpt. by apply bandOf_inBand.
    + rewrite Hth. destruct (Nat.eqb_spec x t) as [->|]; [by apply Hno in Hx|].
      by apply Hb0.
  - intros q. rewrite Hpt, Hmem. specialize (Hno q). naive_solver.
Qed.

(** Claim C6. [FindNextToRun] takes the head of the first non-empty list
    among L1, L2, L3 (the lists before it are empty, the others are left
    alone), adds [totalTicks - ReadyStartTime] to that thread's
    [TimeInReadyQueue], and returns no thread exactly when all three lists
    are empty. *)
Theorem FindNextToRun_takes_highest_band (k : Kernel) :
  match FindNextToRun k with
  | (Some t, k') =>
      exists q rest,
        getq q k = t :: rest /\ higher_empty q k /\
        getq q k' = rest /\
        (forall q', q' <> q -> getq q' k' = getq q' k) /\
        TimeInReadyQueue (threads k' t) =
          TimeInReadyQueue (threads k t)
          + (totalTicks k - ReadyStartTime (threads k t)) /\
        priority (threads k' t) = priority (threads k t) /\
        predictTime (threads k' t) = predictTime (threads k t) /\
        ReadyStartTime (threads k' t) = ReadyStartTime (threads k t) /\
        status (threads k' t) = status (threads k t) /\
        (forall x, x <> t -> threads k' x = threads k x) /\
        totalTicks k' = totalTicks k /\
        currentThread k' = currentThread k /\
        preemptive k' = preemptive k
  | (None, k') => k' = k /\ L1 k = [] /\ L2 k = [] /\ L3 k = []
  end
  /\ (fst (FindNextToRun k) = None <-> L1 k = [] /\ L2 k = [] /\ L3 k = []).
Proof.
  unfold FindNextToRun.
  destruct (L1 k) as [|t1 r1] eqn:E1; simpl.
  2:{ split; [|naive_solver]. exists Q1, r1. simpl.
      rewrite Nat.eqb_refl. split_and!; try done.
      - by intros [].
      - intros x Hx. by destruct (Nat.eqb_spec x t1). }
  destruct (L2 k) as [|t2 r2] eqn:E2; simpl.
  2:{ split; [|naive_solver]. exists Q2, r2. simpl.
      rewrite Nat.eqb_refl. split_and!; try done.
      - by intros [].
      - intros x Hx. by destruct (Nat.eqb_spec x t2). }
  destruct (L3 k) as [|t3 r3] eqn:E3; simpl.
  2:{ split; [|naive_solver]. exists Q3, r3. simpl.
      rewrite Nat.eqb_refl. split_and!; try done.
      - by intros [].
      - intros x Hx. by destruct (Nat.eqb_spec x t3). }
  done.
Qed.

(** The invariant holds when no thread is ready ([Scheduler::Scheduler]),
    and [FindNextToRun] keeps it. *)
Lemma ReadyInv_no_ready k : L1 k = [] -> L2 k = [] -> L3 k = [] -> ReadyInv k.
Proof.
  intros H1 H2 H3. split.
  - unfold ready. rewrite H1, H2, H3. apply NoDup_nil_2.
  - intros [] t; simpl; rewrite ?H1, ?H2, ?H3; set_solver.
Qed.

Lemma leave_ready_setq_ReadyInv k q t rest :
  ReadyInv k -> getq q k = t :: rest ->
  ReadyInv (leave_ready t (setq q rest k)).
Proof.
  intros [Hnd Hb]%ReadyInv_alt Hq. apply ReadyInv_alt.
  assert (Hq' : forall q', getq q' (leave_ready t (setq q rest k)) =
                           if decide (q' = q) then rest else getq q' k).
  { intros q'. by destruct q, q'. }
  assert (Hsub : forall q' x, x ∈ getq q' (leave_ready t (setq q rest k)) ->
                              x ∈ getq q' k).
  { intros q' x. rewrite Hq'. case_decide as E; [|done].
    rewrite E, Hq. set_solver. }
  split.
  - intros q'. rewrite Hq'. case_decide as E; [|apply Hnd].
    specialize (Hnd q). rewrite Hq in Hnd.
    by apply NoDup_cons in Hnd as [_ ?].
  - intros q' x Hx. apply Hsub, Hb in Hx.
    replace (priority (threads (leave_ready t (setq q rest k)) x))
      with (priority (threads k x)); [done|].
    destruct q; simpl; by destruct (Nat.eqb_spec x t) as [->|].
Qed.

Lemma FindNextToRun_keeps_ReadyInv k :
  ReadyInv k -> ReadyInv (snd (FindNextToRun k)).
Proof.
  intros Hinv. unfold FindNextToRun.
  destruct (L1 k) as [|t1 r1] eqn:E1; cbn [List_IsEmpty negb snd].
  2:{ by apply (leave_ready_setq_ReadyInv k Q1). }
  destruct (L2 k) as [|t2 r2] eqn:E2; cbn [List_IsEmpty negb snd].
  2:{ by apply (leave_ready_setq_ReadyInv k Q2). }
  destruct (L3 k) as [|t3 r3] eqn:E3; cbn [List_IsEmpty negb snd]; [done|].
  by apply (leave_ready_setq_ReadyInv k Q3).
Qed.

(* --------------------------------------------------------------------- *)
(** ** The theorems at the sample kernel                                  *)
(* --------------------------------------------------------------------- *)

Lemma sample_kernel_ReadyInv : ReadyInv sample_kernel.
Proof.
  split.
  - unfold ready. simpl.
    repeat (apply NoDup_cons; split; [set_solver|]). apply NoDup_nil_2.
  - intros [] t Ht; simpl in Ht; apply list_elem_of_singleton in Ht as ->;
      simpl; lia.
Defined.

(** Promoting thread 1 into L1 while thread 0 runs at priority 20 raises
    the flag. *)
Lemma aging_promotion_sets_preemption_witness :
  1%nat ∈ L1 (aging_body Q2 sample_kernel 1%nat) /\
  preemptive (aging_body Q2 sample_kernel 1%nat) = true.
Proof.
  assert (H1 : 1%nat ∈ getq Q2 sample_kernel) by (simpl; set_solver).
  assert (Hdue : due (totalTicks sample_kernel) (threads sample_kernel 1%nat)).
  { unfold due, waited. simpl. lia. }
  destruct (aging_promotion_sets_preemption Q2 sample_kernel 1%nat
              sample_kernel_ReadyInv H1 Hdue) as (HL1 & _ & _).
  assert (Hin : 1%nat ∈ L1 (aging_body Q2 sample_kernel 1%nat)).
  { vm_compute. set_solver. }
  split; [exact Hin | exact (HL1 Hin)].
Defined.

(** Thread 4 (priority 0, on no list) made ready lands on L3; the aging
    tick moves thread 1 from L2 to L1 and ends with the invariant. *)
Lemma ready_queues_follow_priority_bands_witness :
  ReadyInv (ReadyToRun 4%nat sample_kernel) /\
  4%nat ∈ L3 (ReadyToRun 4%nat sample_kernel) /\
  exists k',
    agingCheck (aging_fuel sample_kernel) sample_kernel = Done k' /\
    1%nat ∈ L1 k' /\ ReadyInv k'.
Proof.
  destruct (ready_queues_follow_priority_bands sample_kernel
              sample_kernel_ReadyInv) as (Hrun & _ & Hage & _).
  destruct (Hrun 4%nat) as [Hinv Hq].
  { unfold ready. simpl. set_solver. }
  { simpl. lia. }
  split_and!; [exact Hinv | apply (Hq Q3); reflexivity |].
  destruct (agingCheck (aging_fuel sample_kernel) sample_kernel)
    as [k'| |] eqn:E.
  - exists k'. split_and!; [reflexivity | | exact (Hage _ _ E)].
    vm_compute in E. injection E as <-. simpl. set_solver.
  - vm_compute in E. discriminate.
  - vm_compute in E. discriminate.
Defined.

(** Scenario 1 of the specification: three threads of priority 0, made
    ready in order, leave L3 in that order. *)
Example scenario_FIFO_L3 :
  let k := ReadyToRun 6%nat (ReadyToRun 5%nat (ReadyToRun 4%nat idle_kernel)) in
  let '(a, k) := FindNextToRun k in
  let '(b, k) := FindNextToRun k in
  let '(c, k) := FindNextToRun k in
  let '(d, k) := FindNextToRun k in
  (a, b, c, d) = (Some 4%nat, Some 5%nat, Some 6%nat, None).
Proof. reflexivity. Qed.

(** Scenario 2: on L1 the shorter predicted burst leaves first. *)
Example scenario_SJF_L1 :
  let th := fun t => match t with
                     | 1%nat => mkThread 120 50 0 0 JUST_CREATED
                     | _ => mkThread 110 20 0 0 JUST_CREATED
                     end in
  let k := mkKernel th 0 0%nat false [] [] [] in
  let k := ReadyToRun 2%nat (ReadyToRun 1%nat k) in
  let '(a, k) := FindNextToRun k in
  let '(b, k) := FindNextToRun k in
  (a, b) = (Some 2%nat, Some 1%nat).
Proof. reflexivity. Qed.

(** The sample kernel serves L1 first. *)
Example sample_kernel_next :
  fst (FindNextToRun sample_kernel) = Some 3%nat.
Proof. reflexivity. Qed.


(* --------------------------------------------------------------------- *)
(** ** The order of L1 and L2                                             *)
(* --------------------------------------------------------------------- *)

(** A sorted list stays sorted under [SortedList::Insert], for a comparator
    that is negative exactly below a key. *)
Lemma SortedList_Insert_sorted (key : tid -> Z) (c : tid -> tid -> Z) t l :
  (forall a b, (c a b <? 0) = (key a <? key b)) ->
  StronglySorted (fun a b => key a <= key b) l ->
  StronglySorted (fun a b => key a <= key b) (SortedList_Insert c t l).
Proof.
  intros Hc. induction l as [|y l IH]; intros Hs; simpl.
  - repeat constructor.
  - apply StronglySorted_inv in Hs as [Hs Hy].
    rewrite Hc. destruct (Z.ltb_spec (key t) (key y)).
    + constructor; [by constructor|].
      constructor; [lia|]. eapply Forall_impl; [exact Hy|].
      intros z Hz. cbv beta in Hz. lia.
    + constructor; [by apply IH|].
      apply Forall_forall. intros z [->|Hz]%elem_of_SortedList_Insert; [lia|].
      rewrite Forall_forall in Hy. by apply Hy.
Qed.

Lemma List_Remove_sorted (R : tid -> tid -> Prop) t l :
  StronglySorted R l -> StronglySorted R (List_Remove t l).
Proof.
  induction l as [|y l IH]; intros Hs; simpl; [done|].
  apply StronglySorted_inv in Hs as [Hs Hy].
  destruct (Nat.eqb t y); [done|].
  constructor; [by apply IH|].
  apply Forall_forall. intros z Hz%elem_of_List_Remove_sub.
  rewrite Forall_forall in Hy. by apply Hy.
Qed.

Lemma StronglySorted_ext (R R' : tid -> tid -> Prop) l :
  (forall a b, a ∈ l -> b ∈ l -> R a b -> R' a b) ->
  StronglySorted R l -> StronglySorted R' l.
Proof.
  induction l as [|y l IH]; intros HR Hs; [constructor|].
  apply StronglySorted_inv in Hs as [Hs Hy]. constructor.
  - apply IH; [|done]. intros a b Ha Hb. apply HR; set_solver.
  - rewrite Forall_forall in Hy |- *. intros z Hz.
    apply HR; [set_solver | set_solver | by apply Hy].
Qed.

Lemma L1_Insert_sorted t k : QueuesSorted k -> QueuesSorted (L1_Insert t k).
Proof.
  intros [Hs H2]. split; [|exact H2].
  change (StronglySorted (byPredictTime k)
            (SortedList_Insert (cmp_of Timecmp k) t (L1 k))).
  apply (SortedList_Insert_sorted (fun a => predictTime (threads k a)));
    [|done].
  intros a b. unfold cmp_of, Timecmp.
  destruct (Z.geb_spec (predictTime (threads k a)) (predictTime (threads k b)));
    destruct (Z.ltb_spec (predictTime (threads k a)) (predictTime (threads k b)));
    simpl; try done; lia.
Qed.

Lemma L2_Insert_sorted t k : QueuesSorted k -> QueuesSorted (L2_Insert t k).
Proof.
  intros [H1 Hs]. split; [exact H1|].
  change (StronglySorted (byPriority k)
            (SortedList_Insert (cmp_of Pricmp k) t (L2 k))).
  eapply StronglySorted_ext;
    [|apply (SortedList_Insert_sorted (fun a => - priority (threads k a)))].
  - intros a b _ _. unfold byPriority. cbv beta. lia.
  - intros a b. unfold cmp_of, Pricmp.
    destruct (Z.leb_spec (priority (threads k a)) (priority (threads k b)));
      destruct (Z.ltb_spec (- priority (threads k a)) (- priority (threads k b)));
      simpl; try done; lia.
  - eapply StronglySorted_ext; [|exact Hs].
    intros a b _ _. unfold byPriority. cbv beta. lia.
Qed.

Lemma QueuesSorted_same_keys k k' :
  (forall x, predictTime (threads k' x) = predictTime (threads k x)) ->
  (forall x, x ∈ L2 k' -> priority (threads k' x) = priority (threads k x)) ->
  StronglySorted (byPredictTime k) (L1 k') ->
  StronglySorted (byPriority k) (L2 k') ->
  QueuesSorted k'.
Proof.
  intros Hpt Hpr H1 H2. split.
  - eapply StronglySorted_ext; [|exact H1].
    intros a b _ _. unfold byPredictTime. by rewrite !Hpt.
  - eapply StronglySorted_ext; [|exact H2].
    intros a b Ha Hb. unfold byPriority. by rewrite !Hpr.
Qed.

Lemma ReadyToRun_sorted t k : QueuesSorted k -> QueuesSorted (ReadyToRun t k).
Proof.
  intros [H1 H2]. unfold ReadyToRun.
  set (k1 := set_thread t _ k).
  assert (Hs1 : QueuesSorted k1).
  { apply (QueuesSorted_same_keys k); try done.
    - intros x. simpl. by destruct (Nat.eqb_spec x t) as [->|].
    - intros x _. simpl. by destruct (Nat.eqb_spec x t) as [->|]. }
  repeat case_match; try done.
  - by apply L1_Insert_sorted.
  - by apply L2_Insert_sorted.
Qed.

Lemma aging_requeue_sorted t k :
  QueuesSorted k -> QueuesSorted (aging_requeue t k).
Proof.
  intros Hs. unfold aging_requeue.
  pose proof (L1_Insert_sorted t k Hs). pose proof (L2_Insert_sorted t k Hs).
  repeat case_match; done.
Qed.

Lemma aging_body_sorted q k t :
  ReadyInv k -> t ∈ getq q k -> QueuesSorted k ->
  QueuesSorted (aging_body q k t).
Proof.
  intros Hinv Hin [H1 H2].
  destruct (decide (due (totalTicks k) (threads k t))) as [Hdue|Hndue];
    [|by rewrite aging_body_not_due].
  rewrite aging_body_unfold by done. apply aging_requeue_sorted.
  set (th' := aged (totalTicks k) (threads k t)).
  apply ReadyInv_alt in Hinv as Halt. destruct Halt as [Hnd _].
  apply (QueuesSorted_same_keys k).
  - intros x. destruct q; simpl; by destruct (Nat.eqb_spec x t) as [->|].
  - intros x Hx.
    assert (x <> t); [|destruct q; simpl; by destruct (Nat.eqb_spec x t)].
    intros ->. destruct q; simpl in Hx.
    + by pose proof (ReadyInv_one_queue k _ Q2 t Hinv Hin Hx).
    + apply elem_of_List_Remove in Hx; [naive_solver | apply (Hnd Q2)].
    + by pose proof (ReadyInv_one_queue k _ Q2 t Hinv Hin Hx).
  - destruct q; simpl; [by apply List_Remove_sorted | done | done].
  - destruct q; simpl; [done | by apply List_Remove_sorted | done].
Qed.

Lemma FindNextToRun_sorted k :
  QueuesSorted k -> QueuesSorted (snd (FindNextToRun k)).
Proof.
  intros [H1 H2]. unfold FindNextToRun.
  assert (Hkeys : forall t q rest,
            StronglySorted (byPredictTime k) (L1 (setq q rest k)) ->
            StronglySorted (byPriority k) (L2 (setq q rest k)) ->
            QueuesSorted (leave_ready t (setq q rest k))).
  { intros t q rest Ha Hb. apply (QueuesSorted_same_keys k).
    - intros x. destruct q; simpl; by destruct (Nat.eqb_spec x t) as [->|].
    - intros x _. destruct q; simpl; by destruct (Nat.eqb_spec x t) as [->|].
    - by destruct q.
    - by destruct q. }
  destruct (L1 k) as [|t1 r1] eqn:E1; cbn [List_IsEmpty negb snd].
  2:{ apply Hkeys; simpl; [|done].
      by apply StronglySorted_inv in H1 as [? _]. }
  destruct (L2 k) as [|t2 r2] eqn:E2; cbn [List_IsEmpty negb snd].
  2:{ apply Hkeys; simpl; [by rewrite E1|].
      by apply StronglySorted_inv in H2 as [? _]. }
  destruct (L3 k) as [|t3 r3] eqn:E3; cbn [List_IsEmpty negb snd].
  2:{ apply Hkeys; simpl; [by rewrite E1 | by rewrite E2]. }
  split; [by rewrite E1 | by rewrite E2].
Qed.

(** Property X1. L1 is kept in ascending order of predicted burst time and
    L2 in descending order of priority: when both lists are in order, they
    are in order again after [ReadyToRun] of any thread, after
    [FindNextToRun], and, over well-formed ready queues, after every aging
    tick ([agingCheck]). *)
Theorem ready_lists_stay_sorted (k : Kernel) :
  QueuesSorted k ->
  (forall t, QueuesSorted (ReadyToRun t k)) /\
  QueuesSorted (snd (FindNextToRun k)) /\
  (ReadyInv k ->
   forall fuel k', agingCheck fuel k = Done k' -> QueuesSorted k').
Proof.
  intros Hs. split_and!.
  - intros t. by apply ReadyToRun_sorted.
  - by apply FindNextToRun_sorted.
  - intros Hinv fuel k' Htick.
    apply (agingCheck_invariant (fun k => ReadyInv k /\ QueuesSorted k))
      in Htick; [by destruct Htick | | done].
    intros q k1 t [Hinv1 Hs1] _ Hin. split.
    + by apply aging_body_step.
    + by apply aging_body_sorted.
Qed.

(** Property X2. With the lists in order, the thread that
    [FindNextToRun] returns is, when L1 is not empty, a thread of L1 with
    the least predicted burst time of L1, and, when L1 is empty and L2 is
    not, a thread of L2 with the greatest priority of L2. *)
Theorem FindNextToRun_picks_shortest_then_highest (k : Kernel) (t : tid) (k' : Kernel) :
  QueuesSorted k ->
  FindNextToRun k = (Some t, k') ->
  (L1 k <> [] ->
   t ∈ L1 k /\
   forall x, x ∈ L1 k -> predictTime (threads k t) <= predictTime (threads k x)) /\
  (L1 k = [] -> L2 k <> [] ->
   t ∈ L2 k /\
   forall x, x ∈ L2 k -> priority (threads k x) <= priority (threads k t)).
Proof.
  intros [H1 H2]. unfold FindNextToRun.
  destruct (L1 k) as [|t1 r1] eqn:E1; cbn [List_IsEmpty negb].
  2:{ intros [= <- <-]. split; [|done]. intros _.
      apply StronglySorted_inv in H1 as [_ Hall]. rewrite Forall_forall in Hall.
      split; [set_solver|]. intros x [->|Hx]%elem_of_cons; [lia|].
      by apply Hall. }
  destruct (L2 k) as [|t2 r2] eqn:E2; cbn [List_IsEmpty negb].
  2:{ intros [= <- <-]. split; [done|]. intros _ _.
      apply StronglySorted_inv in H2 as [_ Hall]. rewrite Forall_forall in Hall.
      split; [set_solver|]. intros x [->|Hx]%elem_of_cons; [lia|].
      by apply Hall. }
  intros _. split; done.
Qed.


(* --------------------------------------------------------------------- *)
(** ** What an aging tick leaves alone                                    *)
(* --------------------------------------------------------------------- *)

(** Property X3. An aging tick ([agingCheck]) neither loses nor
    duplicates a ready thread: the ready threads after the tick are a
    permutation of those before. *)
Theorem agingCheck_permutes_ready (k : Kernel) (fuel : nat) (k' : Kernel) :
  agingCheck fuel k = Done k' -> ready k' ≡ₚ ready k.
Proof.
  apply (agingCheck_invariant (fun k1 => ready k1 ≡ₚ ready k)); [|done].
  intros q k1 t Hperm _ Hin. by rewrite ready_aging_body.
Qed.

Lemma elem_of_List_Remove_ne (t x : tid) (l : list tid) :
  x <> t -> x ∈ List_Remove t l <-> x ∈ l.
Proof.
  intros Hne. induction l as [|y l IH]; simpl; [done|].
  destruct (Nat.eqb_spec t y) as [->|]; set_solver.
Qed.

Lemma aging_body_other q k t x :
  x <> t ->
  threads (aging_body q k t) x = threads k x /\
  forall q', x ∈ getq q' (aging_body q k t) <-> x ∈ getq q' k.
Proof.
  intros Hne.
  destruct (decide (due (totalTicks k) (threads k t))) as [Hdue|Hndue];
    [|by rewrite aging_body_not_due].
  rewrite aging_body_unfold by done.
  set (k2 := setq q _ _).
  destruct (aging_requeue_frame t k2) as (-> & _ & _). split.
  - unfold k2. destruct q; simpl; by destruct (Nat.eqb_spec x t).
  - intros q'. rewrite aging_requeue_elem. unfold k2.
    rewrite getq_setq. case_decide as E.
    + subst q'. rewrite elem_of_List_Remove_ne by done. naive_solver.
    + assert (getq q' (set_thread t (aged (totalTicks k) (threads k t)) k)
              = getq q' k) as -> by (by destruct q').
      naive_solver.
Qed.

Lemma aging_body_frame q k t :
  totalTicks (aging_body q k t) = totalTicks k /\
  currentThread (aging_body q k t) = currentThread k /\
  (preemptive k = true -> preemptive (aging_body q k t) = true).
Proof.
  destruct (decide (due (totalTicks k) (threads k t))) as [Hdue|Hndue];
    [|by rewrite aging_body_not_due].
  rewrite aging_body_unfold by done.
  set (k2 := setq q _ _).
  destruct (aging_requeue_frame t k2) as (_ & -> & ->).
  split_and!; try (unfold k2; by destruct q).
  intros Hp. rewrite aging_requeue_preemptive.
  replace (preemptive k2) with (preemptive k) by (unfold k2; by destruct q).
  rewrite Hp. by repeat case_match.
Qed.

(** Property X4. A thread that is not due for promotion (its
    priority is outside [0,150) or it has waited less than 1500 ticks) is
    left alone by an aging tick, whatever the state of the queues: its
    fields are unchanged and it is on the same lists as before. *)
Theorem agingCheck_leaves_waiting_threads_alone
    (k : Kernel) (t : tid) (fuel : nat) (k' : Kernel) :
  ~ due (totalTicks k) (threads k t) ->
  agingCheck fuel k = Done k' ->
  threads k' t = threads k t /\
  forall q, t ∈ getq q k' <-> t ∈ getq q k.
Proof.
  intros Hnd Htick.
  apply (agingCheck_invariant
           (fun k1 => totalTicks k1 = totalTicks k /\
                      threads k1 t = threads k t /\
                      forall q, t ∈ getq q k1 <-> t ∈ getq q k))
    in Htick; [by destruct Htick as (_ & ? & ?) | | done].
  intros q k1 x (Htk & Hth & Hmem) Hdue Hin.
  assert (Hne : t <> x).
  { intros ->. apply Hnd. by rewrite <- Htk, <- Hth. }
  destruct (aging_body_other q k1 x t Hne) as [Hth1 Hmem1].
  destruct (aging_body_frame q k1 x) as (Htk1 & _).
  split_and!; [congruence | congruence |].
  intros q'. by rewrite Hmem1.
Qed.

(** Property X5. An aging tick changes neither the clock nor the
    running thread, and it never clears the preemption flag: a flag that
    is raised stays raised. *)
Theorem agingCheck_never_clears_preemption
    (k : Kernel) (fuel : nat) (k' : Kernel) :
  agingCheck fuel k = Done k' ->
  totalTicks k' = totalTicks k /\
  currentThread k' = currentThread k /\
  (preemptive k = true -> preemptive k' = true).
Proof.
  apply (agingCheck_invariant
           (fun k1 => totalTicks k1 = totalTicks k /\
                      currentThread k1 = currentThread k /\
                      (preemptive k = true -> preemptive k1 = true)));
    [|done].
  intros q k1 x (Htk & Hcur & Hpre) _ _.
  destruct (aging_body_frame q k1 x) as (Htk1 & Hcur1 & Hpre1).
  split_and!; [congruence | congruence | auto].
Qed.

(* --------------------------------------------------------------------- *)
(** ** The preemption poll                                                *)
(* --------------------------------------------------------------------- *)

Lemma set_preemptive_same k : set_preemptive (preemptive k) k = k.
Proof. by destruct k. Qed.

Lemma preemptL1_fold l : forall k,
  preemptL1 l k =
  set_preemptive
    (preemptive k
     || ((100 <=? priority (threads k (currentThread k)))
         && existsb (fun t => predictTime (threads k t)
                              <? predictTime (threads k (currentThread k))) l))
    k.
Proof.
  unfold preemptL1.
  induction l as [|t l IH]; intros k; simpl.
  - by rewrite andb_false_r, orb_false_r, set_preemptive_same.
  - unfold preemptL1_body at 2. rewrite Z.geb_leb, Z.gtb_ltb.
    destruct (100 <=? priority (threads k (currentThread k))) eqn:E1; simpl.
    + destruct (predictTime (threads k t)
                <? predictTime (threads k (currentThread k))) eqn:E2; simpl.
      * rewrite IH. simpl. by rewrite !orb_true_r.
      * by rewrite IH, E1.
    + rewrite IH, E1. done.
Qed.

(** Property X6. [doPreemptL1] changes the preemption flag only: it
    raises it when the running thread has priority at least 100 and some
    thread on L1 has a strictly shorter predicted burst, and leaves it as
    it was otherwise. *)
Theorem doPreemptL1_raises_flag_for_shorter_burst (k : Kernel) :
  doPreemptL1 k =
  set_preemptive
    (preemptive k
     || ((100 <=? priority (threads k (currentThread k)))
         && existsb (fun t => predictTime (threads k t)
                              <? predictTime (threads k (currentThread k)))
                    (L1 k)))
    k.
Proof. apply preemptL1_fold. Qed.

Lemma existsb_sorted_head (k : Kernel) (c : Z) (l : list nat) :
  StronglySorted (byPredictTime k) l ->
  existsb (fun t => predictTime (threads k t) <? c) l
  = match l with
    | [] => false
    | first :: _ => predictTime (threads k first) <? c
    end.
Proof.
  intros Hs. destruct l as [|first l]; [done|]. simpl.
  destruct (Z.ltb_spec (predictTime (threads k first)) c); [done|]. simpl.
  apply StronglySorted_inv in Hs as [_ Hall].
  apply not_true_is_false. intros (x & Hx & Hlt)%existsb_exists.
  rewrite List.Forall_forall in Hall. apply Hall in Hx.
  unfold byPredictTime in Hx. lia.
Qed.

(** Property X7. With L1 in order, the loop of [preemptL1] over all of
    L1 decides as the head of L1 alone would: after [doPreemptL1] the flag
    is raised when it was raised before, or when the running thread has
    priority at least 100 and a longer predicted burst than the head of
    L1. *)
Theorem doPreemptL1_decided_by_head_of_L1 (k : Kernel) :
  QueuesSorted k ->
  preemptive (doPreemptL1 k) =
  preemptive k
  || ((100 <=? priority (threads k (currentThread k)))
      && match L1 k with
         | [] => false
         | first :: _ =>
             predictTime (threads k first)
             <? predictTime (threads k (currentThread k))
         end).
Proof.
  intros [Hs _]. unfold doPreemptL1. rewrite preemptL1_fold.
  rewrite (existsb_sorted_head k _ _ Hs). by destruct k.
Qed.

(** Property X8. [ReadyToRun] of a thread of priority 150 or more
    marks it READY and puts it on none of the three lists: the lists are
    as before, and so is the thread that [FindNextToRun] returns. *)
Theorem ReadyToRun_drops_priority_150 (k : Kernel) (t : tid) :
  150 <= priority (threads k t) ->
  status (threads (ReadyToRun t k) t) = READY /\
  (forall q, getq q (ReadyToRun t k) = getq q k) /\
  fst (FindNextToRun (ReadyToRun t k)) = fst (FindNextToRun k).
Proof.
  intros Hp. unfold ReadyToRun. simpl.
  destruct (Z.ltb_spec (priority (threads k t)) 150); [lia|].
  destruct (Z.ltb_spec (priority (threads k t)) 100); [lia|].
  destruct (Z.ltb_spec (priority (threads k t)) 50); [lia|].
  simpl. rewrite Nat.eqb_refl. split_and!; [done | by intros [] |].
  unfold FindNextToRun. simpl. by repeat case_match.
Qed.

(* --------------------------------------------------------------------- *)
(** ** The scheduler theorems at the crowded kernel                       *)
(* --------------------------------------------------------------------- *)

Lemma crowded_kernel_sorted : QueuesSorted crowded_kernel.
Proof.
  split; simpl; repeat constructor; unfold byPredictTime, byPriority; simpl;
    lia.
Defined.

Lemma crowded_kernel_ReadyInv : ReadyInv crowded_kernel.
Proof.
  split.
  - unfold ready. simpl.
    repeat (apply NoDup_cons; split; [set_solver|]). apply NoDup_nil_2.
  - intros [] t Ht; simpl in Ht;
      repeat (apply elem_of_cons in Ht as [->|Ht]; [simpl; lia|]);
      by apply elem_of_nil in Ht.
Defined.

(** The aging tick promotes thread 3 to priority 100 and moves it from L2
    to the head of L1. *)
Lemma ready_lists_stay_sorted_witness :
  QueuesSorted (ReadyToRun 0%nat crowded_kernel) /\
  QueuesSorted (snd (FindNextToRun crowded_kernel)) /\
  exists k',
    agingCheck (aging_fuel crowded_kernel) crowded_kernel = Done k' /\
    L1 k' = [3%nat; 1%nat; 2%nat] /\ QueuesSorted k'.
Proof.
  pose proof (ready_lists_stay_sorted crowded_kernel crowded_kernel_sorted)
    as (Hrun & Hnext & Haging).
  split_and!; [apply Hrun | exact Hnext |].
  destruct (agingCheck (aging_fuel crowded_kernel) crowded_kernel)
    as [k'| |] eqn:E.
  - exists k'. split_and!;
      [reflexivity | | exact (Haging crowded_kernel_ReadyInv _ _ E)].
    vm_compute in E. by injection E as <-.
  - vm_compute in E. discriminate.
  - vm_compute in E. discriminate.
Defined.

(** Thread 1, with the shortest predicted burst of L1, is the next to
    run. *)
Lemma FindNextToRun_picks_shortest_then_highest_witness :
  (1%nat ∈ L1 crowded_kernel) /\
  forall x, x ∈ L1 crowded_kernel ->
    predictTime (threads crowded_kernel 1%nat)
    <= predictTime (threads crowded_kernel x).
Proof.
  apply (FindNextToRun_picks_shortest_then_highest crowded_kernel 1%nat
           (snd (FindNextToRun crowded_kernel)) crowded_kernel_sorted).
  - reflexivity.
  - simpl. discriminate.
Defined.

Lemma agingCheck_permutes_ready_witness :
  exists k',
    agingCheck (aging_fuel crowded_kernel) crowded_kernel = Done k' /\
    ready k' ≡ₚ ready crowded_kernel.
Proof.
  destruct (agingCheck (aging_fuel crowded_kernel) crowded_kernel)
    as [k'| |] eqn:E.
  - exists k'. split; [reflexivity|].
    exact (agingCheck_permutes_ready crowded_kernel _ k' E).
  - vm_compute in E. discriminate.
  - vm_compute in E. discriminate.
Defined.

(** Thread 4 has waited 100 ticks. *)
Lemma agingCheck_leaves_waiting_threads_alone_witness :
  exists k',
    agingCheck (aging_fuel crowded_kernel) crowded_kernel = Done k' /\
    threads k' 4%nat = threads crowded_kernel 4%nat /\
    forall q, 4%nat ∈ getq q k' <-> 4%nat ∈ getq q crowded_kernel.
Proof.
  destruct (agingCheck (aging_fuel crowded_kernel) crowded_kernel)
    as [k'| |] eqn:E.
  - exists k'. split; [reflexivity|].
    apply (agingCheck_leaves_waiting_threads_alone crowded_kernel 4%nat
             (aging_fuel crowded_kernel) k'); [|exact E].
    unfold due, waited. simpl. lia.
  - vm_compute in E. discriminate.
  - vm_compute in E. discriminate.
Defined.

Lemma agingCheck_never_clears_preemption_witness :
  exists k',
    agingCheck (aging_fuel crowded_kernel)
               (set_preemptive true crowded_kernel) = Done k' /\
    preemptive k' = true.
Proof.
  destruct (agingCheck (aging_fuel crowded_kernel)
              (set_preemptive true crowded_kernel)) as [k'| |] eqn:E.
  - exists k'. split; [reflexivity|].
    apply (agingCheck_never_clears_preemption
             (set_preemptive true crowded_kernel) _ k' E).
    reflexivity.
  - vm_compute in E. discriminate.
  - vm_compute in E. discriminate.
Defined.

(** The running thread has priority 120 and a predicted burst of 40, the
    head of L1 one of 10. *)
Lemma doPreemptL1_decided_by_head_of_L1_witness :
  preemptive (doPreemptL1 crowded_kernel) = true.
Proof.
  rewrite (doPreemptL1_decided_by_head_of_L1 crowded_kernel
             crowded_kernel_sorted).
  reflexivity.
Defined.

(** Thread 6 has priority 150. *)
Lemma ReadyToRun_drops_priority_150_witness :
  status (threads (ReadyToRun 6%nat crowded_kernel) 6%nat) = READY /\
  (forall q, getq q (ReadyToRun 6%nat crowded_kernel)
             = getq q crowded_kernel) /\
  fst (FindNextToRun (ReadyToRun 6%nat crowded_kernel))
  = fst (FindNextToRun crowded_kernel).
Proof.
  apply (ReadyToRun_drops_priority_150 crowded_kernel 6%nat). simpl. lia.
Defined.

(* --------------------------------------------------------------------- *)
(** ** The file header                                                    *)
(* --------------------------------------------------------------------- *)

Section FileHeaderFacts.

Variable g : Geometry.

(** [divRoundUp] is the ceiling of the quotient. *)
Lemma divRoundUp_ceiling (n s : Z) : 0 < s -> divRoundUp n s = - ((- n) `div` s).
Proof.
  intros Hs. unfold divRoundUp.
  destruct (Z.gtb_spec (Z.rem n s) 0) as [Hr|Hr].
  - assert (0 < n).
    { destruct (Z.le_gt_cases n 0) as [Hn|]; [|done].
      pose proof (Z.rem_nonpos n s). lia. }
    rewrite Z.quot_div_nonneg, Z.rem_mod_nonneg in * by lia.
    pose proof (Z.div_mod n s). pose proof (Z.mod_pos_bound n s).
    pose proof (Z.div_mod (- n) s). pose proof (Z.mod_pos_bound (- n) s).
    nia.
  - destruct (Z.le_gt_cases 0 n) as [Hn|Hn].
    + rewrite Z.quot_div_nonneg, Z.rem_mod_nonneg in * by lia.
      pose proof (Z.div_mod n s). pose proof (Z.mod_pos_bound n s).
      pose proof (Z.div_mod (- n) s). pose proof (Z.mod_pos_bound (- n) s).
      nia.
    + rewrite <- (Z.opp_involutive n) at 1. rewrite Z.quot_opp_l by lia.
      rewrite Z.quot_div_nonneg by lia. lia.
Qed.

Lemma Allocate_unfold fuel this w fileSize :
  Allocate g (S fuel) this w fileSize =
  let this := mkFileHeader fileSize (divRoundUp fileSize (SectorSize g))
                           (dataSectors this) in
  if Bitmap_NumClear (freeMap w) <? numSectors this then Done (false, this, w)
  else if fileSize >? Level2 g then
    '(this, w) ← Allocate_while g fuel (Allocate_bound g fileSize) this w fileSize 0;
    Done (true, this, w)
  else
    '(this, w) ← for_loop 0 (numSectors this)
                   (Allocate_claim) (this, w);
    Done (true, this, w).
Proof. reflexivity. Qed.

(** Claim C5. When the free map has fewer clear bits than
    ceil(fileSize / SectorSize), [Allocate g] returns FALSE, and the free map
    (and the disk) are exactly as they were before the call; only
    [numBytes] and [numSectors] of the header have been written. *)
Theorem Allocate_fails_without_claiming
    (fuel : nat) (this : FileHeader) (w : FS) (fileSize : Z) :
  0 < SectorSize g ->
  Bitmap_NumClear (freeMap w) < - ((- fileSize) `div` SectorSize g) ->
  Allocate g (S fuel) this w fileSize =
  Done (false,
        mkFileHeader fileSize (- ((- fileSize) `div` SectorSize g))
                     (dataSectors this),
        w).
Proof.
  intros Hs Hlt. rewrite Allocate_unfold. cbv zeta. simpl.
  rewrite divRoundUp_ceiling by done.
  destruct (Z.ltb_spec (Bitmap_NumClear (freeMap w))
                       (- ((- fileSize) `div` SectorSize g))); [|lia].
  reflexivity.
Qed.

(** FALSE comes from that first test only: whenever [Allocate g] returns
    FALSE, nothing was claimed. *)

Lemma Allocate_false_unchanged fuel this w fileSize hdr w' :
  Allocate g fuel this w fileSize = Done (false, hdr, w') -> w' = w.
Proof.
  destruct fuel as [|fuel]; [done|]. rewrite Allocate_unfold. cbv zeta.
  repeat case_match; simpl; try congruence.
  - destruct (Allocate_while g _ _ _ _ _ _) as [[??]| |]; simpl; congruence.
  - destruct (for_loop _ _ _ _) as [[??]| |]; simpl; congruence.
Qed.

Lemma finished_bind {A B} (m : outcome A) (f : A -> outcome B) :
  finished m -> (forall a, m = Done a -> finished (f a)) -> finished (m ≫= f).
Proof. destruct m; simpl; intros Hm Hf; [by apply Hf | done | done]. Qed.

Lemma for_loop_n_finished {S} n i (body : Z -> S -> outcome S) s :
  (forall i s, finished (body i s)) -> finished (for_loop_n n i body s).
Proof.
  intros Hb. revert i s. induction n as [|n IH]; intros i s; simpl; [done|].
  apply finished_bind; auto.
Qed.

Lemma Allocate_claim_finished i st : finished (Allocate_claim i st).
Proof.
  unfold Allocate_claim, dataSectors_set. destruct st as [this w].
  destruct (Bitmap_FindAndSet _) as [s map].
  repeat case_match; simpl; try done; repeat case_match; done.
Qed.

Lemma dataSectors_get_finished this i : finished (dataSectors_get this i).
Proof. unfold dataSectors_get. by repeat case_match. Qed.

Lemma WriteBack_finished this s d : finished (WriteBack g this s d).
Proof. unfold WriteBack, in_disk. by case_match. Qed.

Lemma Allocate_while_unfold fuel bound this w fileSize i :
  Allocate_while g (S fuel) bound this w fileSize i =
  if fileSize >? 0 then
    '(this, w) ← Allocate_claim i (this, w);
    s ← dataSectors_get this i;
    '(_, subheader, w) ← Allocate g fuel (new_FileHeader g) w
                            (Z.min fileSize bound);
    d ← WriteBack g subheader s (disk w);
    Allocate_while g fuel bound this (mkFS (freeMap w) d) (fileSize - bound) (i + 1)
  else Done (this, w).
Proof.
  simpl. destruct (fileSize >? 0); [|done].
  destruct (Z.gtb_spec fileSize bound);
    [rewrite Z.min_r by lia | rewrite Z.min_l by lia]; reflexivity.
Qed.

(** More fuel does not change the result of a run that came to its end. *)
Lemma bind_stable {A B} (m m' : outcome A) (k k' : A -> outcome B) :
  finished (m ≫= k) ->
  (finished m -> m' = m) ->
  (forall a, m = Done a -> finished (k a) -> k' a = k a) ->
  m' ≫= k' = m ≫= k.
Proof.
  destruct m as [a|e|]; simpl; intros Hfin Hm Hk.
  - rewrite Hm by done. simpl. by apply Hk.
  - by rewrite Hm.
  - done.
Qed.

Lemma Allocate_fuel_step (f : nat) :
  (forall this w sz,
     finished (Allocate g f this w sz) ->
     Allocate g (S f) this w sz = Allocate g f this w sz) /\
  (forall bound this w sz i,
     finished (Allocate_while g f bound this w sz i) ->
     Allocate_while g (S f) bound this w sz i = Allocate_while g f bound this w sz i).
Proof.
  induction f as [|f [IHa IHw]]; [by split|]. split.
  - intros this w sz. rewrite !Allocate_unfold. cbv zeta.
    case_match; [done|]. case_match; [|done].
    intros Hfin. apply bind_stable; [done | apply IHw | done].
  - intros bound this w sz i. rewrite !Allocate_while_unfold.
    case_match; [|done]. intros Hfin.
    apply bind_stable; [done | done |]. intros [this1 w1] _ Hfin1.
    apply bind_stable; [done | done |]. intros s _ Hfin2.
    apply bind_stable; [done | apply IHa |]. intros [[ok sub] w2] _ Hfin3.
    apply bind_stable; [done | done |]. intros d _ Hfin4.
    by apply IHw.
Qed.

Lemma Allocate_fuel_stable (f f' : nat) this w sz :
  (f <= f')%nat -> finished (Allocate g f this w sz) ->
  Allocate g f' this w sz = Allocate g f this w sz.
Proof.
  intros Hle Hfin. induction Hle as [|f' Hle IH]; [done|].
  rewrite <- IH. apply Allocate_fuel_step. by rewrite IH.
Qed.
Hypothesis SectorSize_pos : 0 < SectorSize g.
Hypothesis NumDirect_pos : 0 < NumDirect g.

Lemma Levels_pos : 0 < Level2 g /\ 0 < Level3 g /\ 0 < Level4 g.
Proof. unfold Level2, Level3, Level4. nia. Qed.

Lemma Levels_le : Level2 g <= Level3 g <= Level4 g.
Proof. unfold Level2, Level3, Level4. nia. Qed.

Lemma Allocate_bound_spec fileSize :
  Level2 g < fileSize ->
  0 < Allocate_bound g fileSize < fileSize /\
  (Allocate_bound g fileSize = Level2 g /\ fileSize <= Level3 g \/
   Allocate_bound g fileSize = Level3 g /\ Level3 g < fileSize <= Level4 g \/
   Allocate_bound g fileSize = Level4 g /\ Level4 g < fileSize).
Proof.
  intros H. pose proof Levels_pos. pose proof Levels_le.
  unfold Allocate_bound.
  destruct (Z.gtb_spec fileSize (Level4 g)); [lia|].
  destruct (Z.gtb_spec fileSize (Level3 g)); lia.
Qed.

Lemma Allocate_while_finished bound (a : nat) :
  0 < bound ->
  (forall sz this w f, sz <= bound -> (a <= f)%nat ->
     finished (Allocate g f this w sz)) ->
  forall (n : nat) fileSize this w i f,
    fileSize <= Z.of_nat n -> (a + n + 1 <= f)%nat ->
    finished (Allocate_while g f bound this w fileSize i).
Proof.
  intros Hb Hsub. induction n as [|n IH]; intros fileSize this w i f Hn Hf.
  - destruct f as [|f]; [lia|]. rewrite Allocate_while_unfold.
    destruct (Z.gtb_spec fileSize 0); [lia | done].
  - destruct f as [|f]; [lia|]. rewrite Allocate_while_unfold.
    destruct (Z.gtb_spec fileSize 0); [|done].
    apply finished_bind; [apply Allocate_claim_finished|].
    intros [this' w'] _.
    apply finished_bind; [apply dataSectors_get_finished|]. intros s _.
    apply finished_bind; [apply Hsub; lia|]. intros [[ok sub] w''] _.
    apply finished_bind; [apply WriteBack_finished|]. intros d _.
    apply IH; lia.
Qed.

Lemma Allocate_direct_finished fileSize this w f :
  fileSize <= Level2 g -> (1 <= f)%nat -> finished (Allocate g f this w fileSize).
Proof.
  intros Hsz Hf. destruct f as [|f]; [lia|]. rewrite Allocate_unfold. cbv zeta.
  case_match; [done|].
  destruct (Z.gtb_spec fileSize (Level2 g)); [lia|].
  apply finished_bind.
  - apply for_loop_n_finished. apply Allocate_claim_finished.
  - by intros [??] _.
Qed.

Lemma Allocate_indirect_finished (a : nat) fileSize this w f :
  (forall sz this w f, sz <= Allocate_bound g fileSize -> (a <= f)%nat ->
     finished (Allocate g f this w sz)) ->
  Level2 g < fileSize ->
  (a + Z.to_nat fileSize + 2 <= f)%nat ->
  finished (Allocate g f this w fileSize).
Proof.
  intros Hsub Hsz Hf. destruct f as [|f]; [lia|]. rewrite Allocate_unfold.
  cbv zeta. case_match; [done|].
  destruct (Z.gtb_spec fileSize (Level2 g)); [|lia].
  apply finished_bind; [|by intros [??] _].
  apply (Allocate_while_finished _ a) with (n := Z.to_nat fileSize);
    [by apply Allocate_bound_spec | done | lia | lia].
Qed.

Lemma Allocate_finished_upto_Level3 fileSize this w f :
  fileSize <= Level3 g -> (Z.to_nat fileSize + 3 <= f)%nat ->
  finished (Allocate g f this w fileSize).
Proof.
  intros Hsz Hf. destruct (Z.le_gt_cases fileSize (Level2 g)).
  - apply Allocate_direct_finished; [done | lia].
  - apply (Allocate_indirect_finished 1); [|done|lia].
    intros sz this' w' f' Hle Hf'. apply Allocate_direct_finished; [|done].
    pose proof Levels_le.
    destruct (Allocate_bound_spec fileSize) as [_ ?]; [done|]. lia.
Qed.

Lemma Allocate_finished_upto_Level4 fileSize this w f :
  fileSize <= Level4 g -> (2 * Z.to_nat fileSize + 5 <= f)%nat ->
  finished (Allocate g f this w fileSize).
Proof.
  intros Hsz Hf. destruct (Z.le_gt_cases fileSize (Level3 g)).
  - apply Allocate_finished_upto_Level3; [done | lia].
  - pose proof Levels_pos. pose proof Levels_le.
    destruct (Allocate_bound_spec fileSize) as [_ Hb]; [lia|].
    apply (Allocate_indirect_finished (Z.to_nat (Level3 g) + 3)); [|lia|lia].
    intros sz this' w' f' Hle Hf'.
    apply Allocate_finished_upto_Level3; lia.
Qed.

(** Claim C9. [Allocate g] terminates on every file size: with
    [Allocate_fuel fileSize] fuel or more the run does not stop for lack of
    fuel. In the indirect case the span [bound] of a sub-header is positive
    and below [fileSize]; an iteration of the loop allocates the sub-header
    with [min remaining bound] bytes, a size below [fileSize], and goes on
    with [remaining - bound], also when the last chunk is smaller than
    [bound]. *)
Theorem Allocate_terminates (fileSize : Z) (this : FileHeader) (w : FS) (fuel : nat) :
  (Allocate_fuel fileSize <= fuel)%nat ->
  Allocate g fuel this w fileSize <> OutOfFuel /\
  Allocate g fuel this w fileSize =
    Allocate g (Allocate_fuel fileSize) this w fileSize /\
  (Level2 g < fileSize ->
   let bound := Allocate_bound g fileSize in
   0 < bound < fileSize /\
   (forall remaining, Z.min remaining bound < fileSize) /\
   (forall fuel' this' w' remaining i,
      0 < remaining ->
      Allocate_while g (S fuel') bound this' w' remaining i =
      '(this', w') ← Allocate_claim i (this', w');
      s ← dataSectors_get this' i;
      '(_, subheader, w') ← Allocate g fuel' (new_FileHeader g) w'
                               (Z.min remaining bound);
      d ← WriteBack g subheader s (disk w');
      Allocate_while g fuel' bound this' (mkFS (freeMap w') d)
                     (remaining - bound) (i + 1))).
Proof.
  intros Hf.
  assert (Hfin : forall f, (Allocate_fuel fileSize <= f)%nat ->
                           finished (Allocate g f this w fileSize)).
  { unfold Allocate_fuel. clear fuel Hf. intros fuel Hf.
    destruct (Z.le_gt_cases fileSize (Level4 g)).
    + apply Allocate_finished_upto_Level4; [done | lia].
    + pose proof Levels_pos. pose proof Levels_le.
      destruct (Allocate_bound_spec fileSize) as [_ Hb]; [lia|].
      apply (Allocate_indirect_finished (2 * Z.to_nat (Level4 g) + 5)); [|lia|lia].
      intros sz this' w' f' Hle Hf'.
      apply Allocate_finished_upto_Level4; lia. }
  split_and!.
  - by apply Hfin.
  - apply Allocate_fuel_stable; [done | by apply Hfin].
  - intros Hsz. cbv zeta.
    destruct (Allocate_bound_spec fileSize) as [Hb _]; [done|].
    split_and!; [lia | lia | intros; lia |].
    intros fuel' this' w' remaining i Hrem.
    rewrite Allocate_while_unfold.
    by destruct (Z.gtb_spec remaining 0); [|lia].
Qed.

End FileHeaderFacts.

(* --------------------------------------------------------------------- *)
(** ** The free map                                                       *)
(* --------------------------------------------------------------------- *)

Lemma FindAndSet_from_spec map : forall j s map',
  FindAndSet_from j map = (s, map') ->
  (s = -1 /\ map' = map) \/
  (exists p : nat, s = j + Z.of_nat p /\ map !! p = Some false /\
                   map' = <[p := true]> map).
Proof.
  induction map as [|b m IH]; intros j s map'; simpl.
  - intros [= <- <-]. by left.
  - destruct b.
    + destruct (FindAndSet_from (j + 1) m) as [r m''] eqn:E.
      intros [= <- <-]. destruct (IH _ _ _ E) as [[-> ->]|(p & -> & Hp & ->)].
      * by left.
      * right. exists (S p). split_and!; [lia | done | done].
    + intros [= <- <-]. right. exists 0%nat. split_and!; [lia | done | done].
Qed.

Lemma set_bits_lookup b ss : forall (map : Bitmap) (j : nat),
  Forall (fun s => (s < length map)%nat) ss ->
  set_bits b ss map !! j = if decide (j ∈ ss) then Some b else map !! j.
Proof.
  unfold set_bits. induction ss as [|s ss IH]; intros map j Hr; cbn [foldl].
  - by rewrite decide_False by set_solver.
  - apply Forall_cons in Hr as [Hs Hr].
    rewrite IH
      by (eapply Forall_impl; [done|]; intros ? ?; cbv beta; by rewrite length_insert).
    destruct (decide (j ∈ ss)) as [Hin|Hnin].
    + by rewrite decide_True by set_solver.
    + destruct (decide (j = s)) as [->|Hne].
      * rewrite decide_True by set_solver. by apply list_lookup_insert_eq.
      * rewrite decide_False by set_solver. by apply list_lookup_insert_ne.
Qed.

Lemma set_bits_length b ss (map : Bitmap) : length (set_bits b ss map) = length map.
Proof.
  unfold set_bits. revert map. induction ss as [|s ss IH]; intros map; simpl; [done|].
  by rewrite IH, length_insert.
Qed.

Lemma clear_set_bits ss (map : Bitmap) :
  Forall (fun s => map !! s = Some false) ss ->
  set_bits false ss (set_bits true ss map) = map.
Proof.
  intros Hf.
  assert (Hr : Forall (fun s => (s < length map)%nat) ss).
  { eapply Forall_impl; [done|]. intros s Hs. cbv beta in Hs.
    by apply lookup_lt_Some in Hs. }
  apply list_eq. intros j.
  rewrite set_bits_lookup
    by (eapply Forall_impl; [exact Hr|]; intros ? ?; cbv beta;
        by rewrite set_bits_length).
  rewrite set_bits_lookup by done.
  case_decide as Hin; [|done].
  rewrite Forall_forall in Hf. by rewrite Hf.
Qed.

(* --------------------------------------------------------------------- *)
(** ** Direct files                                                       *)
(* --------------------------------------------------------------------- *)

Section DirectFiles.

Variable g : Geometry.

Lemma Allocate_claim_spec (i : nat) this w hdr w' :
  Allocate_claim (Z.of_nat i) (this, w) = Done (hdr, w') ->
  exists p : nat,
    (i < length (dataSectors this))%nat /\
    hdr = mkFileHeader (numBytes this) (numSectors this)
                       (<[i := Z.of_nat p]> (dataSectors this)) /\
    freeMap w !! p = Some false /\
    w' = mkFS (<[p := true]> (freeMap w)) (disk w).
Proof.
  unfold Allocate_claim, Bitmap_FindAndSet, dataSectors_set.
  destruct (FindAndSet_from 0 (freeMap w)) as [s map] eqn:E.
  apply FindAndSet_from_spec in E.
  destruct (Z.leb_spec 0 (Z.of_nat i)); [|lia].
  destruct (Z.ltb_spec (Z.of_nat i) (Z.of_nat (length (dataSectors this))));
    simpl; [|done].
  destruct (Z.geb_spec s 0); [|done].
  intros [= <- <-]. destruct E as [[-> _]|(p & -> & Hp & ->)]; [lia|].
  exists p. rewrite Nat2Z.id. split_and!; [lia | done | done | done].
Qed.

Lemma Allocate_direct_loop n : forall (i : nat) this w hdr w',
  for_loop_n n (Z.of_nat i) Allocate_claim (this, w) = Done (hdr, w') ->
  exists ss : list nat,
    length ss = n /\
    numBytes hdr = numBytes this /\ numSectors hdr = numSectors this /\
    dataSectors hdr =
      take i (dataSectors this) ++ (Z.of_nat <$> ss)
        ++ drop (i + n) (dataSectors this) /\
    freeMap w' = set_bits true ss (freeMap w) /\
    disk w' = disk w /\
    NoDup ss /\
    Forall (fun s => freeMap w !! s = Some false) ss.
Proof.
  induction n as [|n IH]; intros i this w hdr w'; cbn [for_loop_n].
  - intros [= <- <-]. exists []. rewrite Nat.add_0_r. simpl.
    rewrite take_drop. split_and!; try done; constructor.
  - destruct (Allocate_claim (Z.of_nat i) (this, w)) as [[this1 w1]| |] eqn:E;
      simpl; [|done|done].
    apply Allocate_claim_spec in E as (p & Hi & -> & Hp & ->).
    replace (Z.of_nat i + 1) with (Z.of_nat (S i)) by lia.
    intros (ss & Hlen & Hnb & Hns & Hds & Hmap & Hdisk & Hnd & Hclear)%IH.
    simpl in *.
    assert (Hpr : (p < length (freeMap w))%nat) by (by eapply lookup_lt_Some).
    assert (Hpss : p ∉ ss).
    { intros Hin. rewrite Forall_forall in Hclear.
      specialize (Hclear p Hin). rewrite list_lookup_insert_eq in Hclear; done. }
    exists (p :: ss). split_and!; simpl; try done.
    + by rewrite Hlen.
    + rewrite Hds. rewrite (take_S_r _ _ (Z.of_nat p))
        by (by apply list_lookup_insert_eq).
      rewrite take_insert_ge by lia.
      rewrite drop_insert_lt by lia.
      rewrite <- app_assoc. simpl. by rewrite Nat.add_succ_r.
    + by apply NoDup_cons.
    + apply Forall_cons. split; [done|].
      rewrite Forall_forall in Hclear |- *. intros s Hs.
      specialize (Hclear s Hs).
      rewrite list_lookup_insert_ne in Hclear; [done|]. set_solver.
Qed.

Lemma Deallocate_release_loop hdr d ss : forall (i : nat) (map : Bitmap),
  (forall j s, ss !! j = Some s ->
               dataSectors hdr !! (i + j)%nat = Some (Z.of_nat s)) ->
  NoDup ss ->
  Forall (fun s => map !! s = Some true) ss ->
  for_loop_n (length ss) (Z.of_nat i) (Deallocate_release hdr) (mkFS map d)
  = Done (mkFS (set_bits false ss map) d).
Proof.
  induction ss as [|s ss IH]; intros i map Hds Hnd Hset; [done|].
  apply NoDup_cons in Hnd as [Hs Hnd]. apply Forall_cons in Hset as [Hset1 Hset].
  cbn [for_loop_n length].
  assert (Hstep : Deallocate_release hdr (Z.of_nat i) (mkFS map d)
                  = Done (mkFS (<[s := false]> map) d)).
  { unfold Deallocate_release, dataSectors_get, Bitmap_Test, Bitmap_Clear.
    pose proof (lookup_lt_Some _ _ _ Hset1).
    destruct (Z.leb_spec 0 (Z.of_nat i)); [|lia].
    rewrite Nat2Z.id. specialize (Hds 0%nat s eq_refl).
    rewrite Nat.add_0_r in Hds. rewrite Hds. simpl.
    destruct (Z.leb_spec 0 (Z.of_nat s)); [|lia].
    destruct (Z.ltb_spec (Z.of_nat s) (Z.of_nat (length map))); [|lia].
    simpl. rewrite Nat2Z.id, Hset1. simpl. done. }
  rewrite Hstep. simpl.
  replace (Z.of_nat i + 1) with (Z.of_nat (S i)) by lia.
  rewrite IH; [done | | done |].
  - intros j s' Hj. specialize (Hds (S j) s' Hj).
    by rewrite Nat.add_succ_r in Hds.
  - rewrite Forall_forall in Hset |- *. intros s' Hs'.
    rewrite list_lookup_insert_ne by set_solver. by apply Hset.
Qed.

Lemma divRoundUp_range offset n s :
  0 < s -> 0 <= offset < n -> 0 <= Z.quot offset s < divRoundUp n s.
Proof.
  intros Hs Ho. rewrite divRoundUp_ceiling by done.
  rewrite Z.quot_div_nonneg by lia.
  pose proof (Z.div_mod offset s). pose proof (Z.mod_pos_bound offset s).
  pose proof (Z.div_mod (- n) s). pose proof (Z.mod_pos_bound (- n) s).
  split; [apply Z.div_pos; lia | nia].
Qed.

Lemma Allocate_direct_spec fuel this w fileSize hdr w' :
  fileSize <= Level2 g ->
  Allocate g fuel this w fileSize = Done (true, hdr, w') ->
  exists ss : list nat,
    length ss = Z.to_nat (divRoundUp fileSize (SectorSize g)) /\
    numBytes hdr = fileSize /\
    numSectors hdr = divRoundUp fileSize (SectorSize g) /\
    dataSectors hdr = (Z.of_nat <$> ss) ++ drop (length ss) (dataSectors this) /\
    freeMap w' = set_bits true ss (freeMap w) /\
    disk w' = disk w /\
    NoDup ss /\
    Forall (fun s => freeMap w !! s = Some false) ss.
Proof.
  intros Hsz. destruct fuel as [|fuel]; [done|]. rewrite Allocate_unfold.
  cbv zeta. case_match; [done|].
  destruct (Z.gtb_spec fileSize (Level2 g)); [lia|].
  unfold for_loop. cbn [numSectors]. rewrite Z.sub_0_r.
  destruct (for_loop_n _ _ _ _) as [[hdr1 w1]| |] eqn:E; simpl; [|done|done].
  intros [= <- <-].
  apply (Allocate_direct_loop _ 0%nat) in E
    as (ss & Hlen & Hnb & Hns & Hds & Hmap & Hdisk & Hnd & Hclear).
  exists ss. simpl in *. rewrite Hlen. by split_and!.
Qed.


End DirectFiles.

(* --------------------------------------------------------------------- *)
(** ** The file header on a disk of 1024 sectors                          *)
(* --------------------------------------------------------------------- *)

(** With one free sector, a file of 500 bytes (4 sectors) is refused. *)
Lemma Allocate_fails_without_claiming_witness :
  Allocate nachos 1 (new_FileHeader nachos)
           (mkFS (replicate 1023 true ++ [false]) blank_disk) 500 =
  Done (false, mkFileHeader 500 4 (replicate 30 (-1)),
        mkFS (replicate 1023 true ++ [false]) blank_disk).
Proof.
  apply (Allocate_fails_without_claiming nachos 0 (new_FileHeader nachos)
           (mkFS (replicate 1023 true ++ [false]) blank_disk) 500).
  - simpl. lia.
  - vm_compute. reflexivity.
Defined.

(** A file of 3841 bytes, one byte more than a direct header holds. *)
Lemma Allocate_terminates_witness :
  Allocate nachos (Allocate_fuel 3841) (new_FileHeader nachos) roomy 3841
    <> OutOfFuel /\
  0 < Allocate_bound nachos 3841 < 3841.
Proof.
  destruct (Allocate_terminates nachos ltac:(simpl; lia) ltac:(simpl; lia)
              3841 (new_FileHeader nachos) roomy (Allocate_fuel 3841))
    as (Hrun & _ & Hloop).
  - lia.
  - split; [exact Hrun|].
    destruct Hloop as [Hb _]; [vm_compute; reflexivity | exact Hb].
Defined.


Example Allocate_3841_claims_33_sectors :
  match Allocate nachos (Allocate_fuel 3841) (new_FileHeader nachos) roomy 3841 with
  | Done (ok, hdr, w1) =>
      ok = true /\ numSectors hdr = 31 /\
      Bitmap_NumClear (freeMap roomy) - Bitmap_NumClear (freeMap w1) = 33
  | _ => False
  end.
Proof. vm_compute. repeat split. Qed.

(** Claim C1, at a failing input. A file of 3841 bytes is allocated on the
    roomy disk: its header is indirect and its first sub-header is in
    sector 3, claimed during [Allocate]. The header is written to sector 2
    and the file is removed ([Deallocate], then the header's own sector is
    cleared): sectors 3 and 34, the two sub-headers, are still marked, and
    the free map has two clear bits fewer than before [Create] claimed
    sector 2. *)
Theorem Deallocate_leaves_subheader_sectors_marked :
  match Allocate nachos (Allocate_fuel 3841) (new_FileHeader nachos) roomy 3841 with
  | Done (ok, hdr, w1) =>
      ok = true /\
      dataSectors_get hdr 0 = Done 3 /\
      dataSectors_get hdr 1 = Done 34 /\
      Bitmap_Test (freeMap roomy) 3 = Done false /\
      Bitmap_Test (freeMap w1) 3 = Done true /\
      match d ← WriteBack nachos hdr 2 (disk w1);
            Remove_blocks nachos header_fuel 2 (mkFS (freeMap w1) d) with
      | Done w2 =>
          Bitmap_Test (freeMap w2) 2 = Done false /\
          Bitmap_Test (freeMap w2) 3 = Done true /\
          Bitmap_Test (freeMap w2) 34 = Done true /\
          Bitmap_NumClear (freeMap w2) = Bitmap_NumClear (freeMap roomy) + 1 - 2
      | _ => False
      end
  | _ => False
  end.
Proof. vm_compute. repeat split. Qed.

(** A file one byte above [Level3] has two sub-headers, but [Deallocate]
    counts ceil(901 / 30) = 31 of them and fetches [dataSectors[2]] = -1. *)
Example Deallocate_above_Level3_faults :
  match Allocate nachos 40 (new_FileHeader nachos) roomy 115201 with
  | Done (ok, hdr, w1) =>
      ok = true /\
      dataSectors_get hdr 2 = Done (-1) /\
      Deallocate nachos header_fuel hdr w1 = Fault AssertionFailed
  | _ => False
  end.
Proof. vm_compute. repeat split. Qed.

(** Claim C4, at a failing input. With 32 free sectors, [Allocate] of 3841
    bytes (31 data sectors and 2 sub-headers) returns TRUE although the
    nested [Allocate] of the last byte found no free sector; offset 3840 is
    below [numBytes], and [ByteToSector] answers -1 for it, which is no
    sector. *)
Theorem ByteToSector_after_short_Allocate :
  Bitmap_NumClear (freeMap nearly_full) = 32 /\
  match Allocate nachos (Allocate_fuel 3841) (new_FileHeader nachos)
                 nearly_full 3841 with
  | Done (ok, hdr, w1) =>
      ok = true /\
      numBytes hdr = 3841 /\
      ByteToSector nachos header_fuel hdr (disk w1) 3840 = Done (-1) /\
      ByteToSector nachos header_fuel hdr (disk w1) 3839 = Done 1022
  | _ => False
  end.
Proof. vm_compute. repeat split. Qed.


(* --------------------------------------------------------------------- *)
(** ** What [Allocate] and [Deallocate] never do                          *)
(* --------------------------------------------------------------------- *)

Lemma for_loop_n_invariant {S} (R : S -> S -> Prop) (body : Z -> S -> outcome S) :
  (forall s, R s s) ->
  (forall s1 s2 s3, R s1 s2 -> R s2 s3 -> R s1 s3) ->
  (forall i s s', body i s = Done s' -> R s s') ->
  forall n i s s', for_loop_n n i body s = Done s' -> R s s'.
Proof.
  intros Hrefl Htrans Hbody. induction n as [|n IH]; intros i s s'; simpl.
  - by intros [= <-].
  - intros (s1 & H1 & H2)%bind_Done_inv. eauto.
Qed.

Lemma only_claims_refl w : only_claims w w.
Proof. done. Qed.

Lemma only_claims_trans w1 w2 w3 :
  only_claims w1 w2 -> only_claims w2 w3 -> only_claims w1 w3.
Proof.
  intros (L12 & M12 & D12) (L23 & M23 & D23). split_and!.
  - congruence.
  - auto.
  - intros s Hs. rewrite D23, D12; [done | |].
    + intros (H0 & Hf & Ht). apply Hs. auto.
    + intros (H0 & Hf & Ht). apply Hs. split_and!; [done | | done].
      destruct (freeMap w1 !! Z.to_nat s) as [[]|] eqn:E.
      * apply M12 in E. congruence.
      * done.
      * apply lookup_lt_Some in Hf. apply lookup_ge_None in E. lia.
Qed.

Lemma Allocate_claim_inv (i : Z) this w hdr w' :
  Allocate_claim i (this, w) = Done (hdr, w') ->
  exists p : nat,
    freeMap w !! p = Some false /\
    w' = mkFS (<[p := true]> (freeMap w)) (disk w) /\
    numBytes hdr = numBytes this /\ numSectors hdr = numSectors this /\
    dataSectors_get hdr i = Done (Z.of_nat p).
Proof.
  unfold Allocate_claim, Bitmap_FindAndSet, dataSectors_set, dataSectors_get.
  destruct (FindAndSet_from 0 (freeMap w)) as [s map] eqn:E.
  apply FindAndSet_from_spec in E.
  destruct (Z.leb_spec 0 i); simpl; [|done].
  destruct (Z.ltb_spec i (Z.of_nat (length (dataSectors this))));
    simpl; [|done].
  destruct (Z.geb_spec s 0); [|done].
  intros [= <- <-]. destruct E as [[-> _]|(p & -> & Hp & ->)]; [lia|].
  exists p. simpl. rewrite list_lookup_insert_eq by lia.
  by split_and!.
Qed.

Lemma Allocate_claim_only_claims i st st' :
  Allocate_claim i st = Done st' -> only_claims st.2 st'.2.
Proof.
  destruct st as [this w], st' as [hdr w'].
  intros (p & Hp & -> & _)%Allocate_claim_inv. simpl.
  pose proof (lookup_lt_Some _ _ _ Hp). split_and!; simpl.
  - by rewrite length_insert.
  - intros q Hq. destruct (decide (q = p)) as [->|]; [congruence|].
    by rewrite list_lookup_insert_ne.
  - done.
Qed.

Section Frames.
Variable g : Geometry.

Lemma WriteBack_claimed this s w0 w d :
  only_claims w0 w ->
  freeMap w0 !! Z.to_nat s = Some false ->
  freeMap w !! Z.to_nat s = Some true ->
  WriteBack g this s (disk w) = Done d ->
  only_claims w0 (mkFS (freeMap w) d).
Proof.
  intros (L & M & D) Hf Ht. unfold WriteBack, in_disk.
  destruct (Z.leb_spec 0 s); simpl; [|done].
  case_match; [|done]. intros [= <-]. split_and!; simpl; [done | done |].
  intros s' Hs'. destruct (Z.eqb_spec s' s) as [->|Hne].
  - destruct Hs'. done.
  - by apply D.
Qed.

Lemma Allocate_only_claims_fuel (f : nat) :
  (forall this w sz r,
     Allocate g f this w sz = Done r -> only_claims w r.2) /\
  (forall bound this w sz i r,
     Allocate_while g f bound this w sz i = Done r -> only_claims w r.2).
Proof.
  induction f as [|f [IHa IHw]]; [by split|]. split.
  - intros this w sz r. rewrite Allocate_unfold. cbv zeta.
    case_match; [by intros [= <-]|]. case_match.
    + intros ([hdr w1] & H1 & [= <-])%bind_Done_inv. by apply IHw in H1.
    + intros ([hdr w1] & H1 & [= <-])%bind_Done_inv. simpl.
      unfold for_loop in H1.
      eapply (for_loop_n_invariant (fun a b => only_claims a.2 b.2)) in H1;
        [done | done | | ].
      * intros ???. apply only_claims_trans.
      * intros ???. apply Allocate_claim_only_claims.
  - intros bound this w sz i r. rewrite Allocate_while_unfold.
    case_match; [|by intros [= <-]].
    intros ([hdr1 w1] & H1 & H2)%bind_Done_inv.
    apply bind_Done_inv in H2 as (s & Hs & H2).
    apply bind_Done_inv in H2 as ([[ok sub] w2] & H2 & H3).
    apply bind_Done_inv in H3 as (d & Hd & H3).
    pose proof H1 as Hc1%Allocate_claim_only_claims. simpl in Hc1.
    apply Allocate_claim_inv in H1 as (p & Hp & -> & _ & _ & Hget).
    rewrite Hget in Hs. injection Hs as <-.
    apply IHa in H2. simpl in H2.
    apply IHw in H3. simpl in H3.
    pose proof (only_claims_trans _ _ _ Hc1 H2) as H02.
    eapply only_claims_trans; [|exact H3].
    eapply WriteBack_claimed; [exact H02 | | | exact Hd].
    + by rewrite Nat2Z.id.
    + rewrite Nat2Z.id. destruct H2 as (_ & M & _). apply M. simpl.
      apply list_lookup_insert_eq. by eapply lookup_lt_Some.
Qed.

(** Property X10. Whatever [Allocate] answers, for a file of any
    size, it only claims: the free map keeps its length, a marked sector
    stays marked, and the disk is unchanged in every sector that was
    marked before the call and in every sector outside the map (the
    sub-headers it writes go to sectors it has just claimed). *)
Theorem Allocate_only_claims_free_sectors
    (fuel : nat) (this : FileHeader) (w : FS) (fileSize : Z)
    (ok : bool) (hdr : FileHeader) (w' : FS) :
  Allocate g fuel this w fileSize = Done (ok, hdr, w') ->
  length (freeMap w') = length (freeMap w) /\
  (forall p, freeMap w !! p = Some true -> freeMap w' !! p = Some true) /\
  (forall s, 0 <= s -> freeMap w !! Z.to_nat s = Some true ->
             disk w' s = disk w s) /\
  (forall s, Z.of_nat (length (freeMap w)) <= s \/ s < 0 ->
             disk w' s = disk w s).
Proof.
  intros H. apply (proj1 (Allocate_only_claims_fuel fuel)) in H.
  destruct H as (L & M & D). simpl in *. split_and!; [done | done | |].
  - intros s Hs Hm. apply D. intros (_ & Hf & _). congruence.
  - intros s Hs. apply D. intros (H0 & Hf & _).
    apply lookup_lt_Some in Hf. lia.
Qed.

Lemma only_releases_refl w : only_releases w w.
Proof. done. Qed.

Lemma only_releases_trans w1 w2 w3 :
  only_releases w1 w2 -> only_releases w2 w3 -> only_releases w1 w3.
Proof.
  intros (D12 & L12 & M12) (D23 & L23 & M23).
  split_and!; [congruence | congruence | auto].
Qed.

Lemma Deallocate_release_only_releases this i w w' :
  Deallocate_release this i w = Done w' -> only_releases w w'.
Proof.
  unfold Deallocate_release.
  intros (s & _ & Hrest)%bind_Done_inv.
  apply bind_Done_inv in Hrest as (b & _ & Hrest). destruct b; [|done].
  apply bind_Done_inv in Hrest as (map & Hc & [= <-]).
  unfold Bitmap_Clear in Hc.
  destruct (Z.leb_spec 0 s); simpl in Hc; [|done].
  destruct (Z.ltb_spec s (Z.of_nat (length (freeMap w)))); [|done].
  injection Hc as <-.
  split_and!; simpl; [done | by rewrite length_insert |].
  intros p Hp. destruct (decide (p = Z.to_nat s)) as [->|Hne].
  - rewrite list_lookup_insert_eq in Hp; [done|]. lia.
  - by rewrite list_lookup_insert_ne in Hp.
Qed.

Lemma Deallocate_releases (fuel : nat) : forall (this : FileHeader) (w w' : FS),
  Deallocate g fuel this w = Done w' -> only_releases w w'.
Proof.
  induction fuel as [|fuel IH]; intros this w w'; [done|].
  cbn [Deallocate]. case_match.
  - unfold for_loop. apply (for_loop_n_invariant only_releases);
      [apply only_releases_refl | apply only_releases_trans |].
    intros i s s' (sec & _ & Hsub)%bind_Done_inv.
    apply bind_Done_inv in Hsub as (sub & _ & Hsub). by apply IH in Hsub.
  - unfold for_loop. apply (for_loop_n_invariant only_releases);
      [apply only_releases_refl | apply only_releases_trans |].
    intros i s s'. apply Deallocate_release_only_releases.
Qed.

(** Property X11. When [Deallocate] returns, for a header of any
    shape, the disk is unchanged, the free map has the same length, and no
    bit is newly marked. *)
Theorem Deallocate_only_releases
    (fuel : nat) (this : FileHeader) (w w' : FS) :
  Deallocate g fuel this w = Done w' ->
  disk w' = disk w /\
  length (freeMap w') = length (freeMap w) /\
  (forall p, freeMap w' !! p = Some true -> freeMap w !! p = Some true).
Proof. apply Deallocate_releases. Qed.

End Frames.


(* --------------------------------------------------------------------- *)
(** ** Direct files: success, accounting, double release                  *)
(* --------------------------------------------------------------------- *)

Lemma Bitmap_NumClear_nonneg (map : Bitmap) : 0 <= Bitmap_NumClear map.
Proof. induction map as [|[] m IH]; simpl; lia. Qed.

Lemma Bitmap_NumClear_set (map : Bitmap) p :
  map !! p = Some false ->
  Bitmap_NumClear (<[p := true]> map) = Bitmap_NumClear map - 1.
Proof.
  revert p. induction map as [|b m IH]; intros p; [done|].
  destruct p as [|p]; simpl.
  - intros [= ->]. lia.
  - intros Hp. rewrite IH by done. lia.
Qed.

Lemma FindAndSet_from_finds (map : Bitmap) : forall j,
  0 < Bitmap_NumClear map ->
  exists p : nat,
    FindAndSet_from j map = (j + Z.of_nat p, <[p := true]> map) /\
    map !! p = Some false.
Proof.
  induction map as [|b m IH]; intros j; simpl; [lia|].
  destruct b; intros Hc.
  - destruct (IH (j + 1)) as (p & -> & Hp); [lia|].
    exists (S p). split; [|done]. simpl. f_equal. lia.
  - exists 0%nat. split; [|done]. simpl. f_equal. lia.
Qed.

Lemma Allocate_claim_succeeds (i : nat) this w :
  (i < length (dataSectors this))%nat ->
  0 < Bitmap_NumClear (freeMap w) ->
  exists hdr w',
    Allocate_claim (Z.of_nat i) (this, w) = Done (hdr, w') /\
    length (dataSectors hdr) = length (dataSectors this) /\
    Bitmap_NumClear (freeMap w') = Bitmap_NumClear (freeMap w) - 1.
Proof.
  intros Hi Hc. unfold Allocate_claim, Bitmap_FindAndSet, dataSectors_set.
  destruct (FindAndSet_from_finds (freeMap w) 0 Hc) as (p & -> & Hp).
  destruct (Z.leb_spec 0 (Z.of_nat i)); [|lia].
  destruct (Z.ltb_spec (Z.of_nat i) (Z.of_nat (length (dataSectors this))));
    [|lia].
  simpl. destruct (Z.geb_spec (0 + Z.of_nat p) 0); [|lia].
  eexists _, _. split; [done|]. simpl.
  by rewrite length_insert, Bitmap_NumClear_set.
Qed.

Lemma Allocate_direct_loop_succeeds n : forall (i : nat) this w,
  (i + n <= length (dataSectors this))%nat ->
  Z.of_nat n <= Bitmap_NumClear (freeMap w) ->
  exists hdr w',
    for_loop_n n (Z.of_nat i) Allocate_claim (this, w) = Done (hdr, w') /\
    Bitmap_NumClear (freeMap w') = Bitmap_NumClear (freeMap w) - Z.of_nat n.
Proof.
  induction n as [|n IH]; intros i this w Hlen Hc; cbn [for_loop_n].
  - eexists _, _. split; [done|]. lia.
  - destruct (Allocate_claim_succeeds i this w) as (h1 & w1 & -> & Hl1 & Hc1);
      [lia | lia |].
    simpl. replace (Z.of_nat i + 1) with (Z.of_nat (S i)) by lia.
    destruct (IH (S i) h1 w1) as (hdr & w' & -> & Hc'); [lia | lia |].
    eexists _, _. split; [done|]. lia.
Qed.

Section DirectMore.
Variable g : Geometry.

Lemma divRoundUp_le_NumDirect fileSize :
  0 < SectorSize g -> 0 < NumDirect g -> fileSize <= Level2 g ->
  divRoundUp fileSize (SectorSize g) <= NumDirect g.
Proof.
  intros Hs Hn Hsz. rewrite divRoundUp_ceiling by done. unfold Level2 in Hsz.
  pose proof (Z.div_mod (- fileSize) (SectorSize g)).
  pose proof (Z.mod_pos_bound (- fileSize) (SectorSize g)). nia.
Qed.

Lemma Allocate_direct_Done
    (fuel : nat) (this : FileHeader) (w : FS) (fileSize : Z) :
  0 < SectorSize g -> 0 < NumDirect g ->
  0 <= fileSize <= Level2 g ->
  (Z.to_nat (NumDirect g) <= length (dataSectors this))%nat ->
  divRoundUp fileSize (SectorSize g) <= Bitmap_NumClear (freeMap w) ->
  exists hdr w',
    Allocate g (S fuel) this w fileSize = Done (true, hdr, w') /\
    Bitmap_NumClear (freeMap w') =
      Bitmap_NumClear (freeMap w) - divRoundUp fileSize (SectorSize g).
Proof.
  intros Hs Hn Hsz Hlen Hc. rewrite Allocate_unfold. cbv zeta. cbn [numSectors].
  destruct (Z.ltb_spec (Bitmap_NumClear (freeMap w))
                       (divRoundUp fileSize (SectorSize g))); [lia|].
  destruct (Z.gtb_spec fileSize (Level2 g)); [lia|].
  pose proof (divRoundUp_le_NumDirect fileSize Hs Hn ltac:(lia)).
  assert (0 <= divRoundUp fileSize (SectorSize g)).
  { rewrite divRoundUp_ceiling by done.
    pose proof (Z.div_mod (- fileSize) (SectorSize g)).
    pose proof (Z.mod_pos_bound (- fileSize) (SectorSize g)). nia. }
  unfold for_loop. cbn [numSectors]. rewrite Z.sub_0_r.
  destruct (Allocate_direct_loop_succeeds
              (Z.to_nat (divRoundUp fileSize (SectorSize g))) 0%nat
              (mkFileHeader fileSize (divRoundUp fileSize (SectorSize g))
                            (dataSectors this)) w)
    as (hdr & w' & Hloop & Hcount); [simpl; lia | lia |].
  change (Z.of_nat 0) with 0 in Hloop. rewrite Hloop. simpl.
  eexists _, _. split; [done|]. lia.
Qed.


Lemma Deallocate_direct_restores fuel hdr ss (map : Bitmap) d :
  numBytes hdr <= Level2 g ->
  Z.to_nat (numSectors hdr) = length ss ->
  (forall j s, ss !! j = Some s -> dataSectors hdr !! j = Some (Z.of_nat s)) ->
  NoDup ss ->
  Forall (fun s => map !! s = Some false) ss ->
  Deallocate g (S fuel) hdr (mkFS (set_bits true ss map) d) = Done (mkFS map d).
Proof.
  intros Hnb Hns Hds Hnd Hclear. cbn [Deallocate].
  destruct (Z.gtb_spec (numBytes hdr) (Level2 g)); [lia|].
  unfold for_loop. rewrite Z.sub_0_r, Hns.
  assert (Hr : Forall (fun s => (s < length map)%nat) ss).
  { eapply Forall_impl; [exact Hclear|]. intros s Hs. cbv beta in Hs.
    by apply lookup_lt_Some in Hs. }
  rewrite (Deallocate_release_loop hdr d ss 0%nat); [| done | done |].
  - by rewrite clear_set_bits.
  - rewrite Forall_forall. intros s Hs. rewrite set_bits_lookup by done.
    by rewrite decide_True.
Qed.

Lemma Allocate_direct_prefix fuel this w fileSize hdr w' :
  fileSize <= Level2 g ->
  Allocate g fuel this w fileSize = Done (true, hdr, w') ->
  exists ss : list nat,
    numBytes hdr = fileSize /\
    numSectors hdr = divRoundUp fileSize (SectorSize g) /\
    Z.to_nat (numSectors hdr) = length ss /\
    (forall j s, ss !! j = Some s -> dataSectors hdr !! j = Some (Z.of_nat s)) /\
    w' = mkFS (set_bits true ss (freeMap w)) (disk w) /\
    NoDup ss /\
    Forall (fun s => freeMap w !! s = Some false) ss.
Proof.
  intros Hsz Halloc.
  destruct (Allocate_direct_spec g _ _ _ _ _ _ Hsz Halloc)
    as (ss & Hlen & Hnb & Hns & Hds & Hmap & Hdisk & Hnd & Hclear).
  exists ss. split_and!; try done.
  - by rewrite Hns.
  - intros j s Hj. rewrite Hds.
    rewrite lookup_app_l by (rewrite length_fmap; by eapply lookup_lt_Some).
    by rewrite list_lookup_fmap, Hj.
  - destruct w'. simpl in *. by subst.
Qed.

(** Property X12. With positive sector size and header capacity, a file of
    at most [Level2] bytes for which the free map has enough clear bits is
    allocated: [Allocate] returns TRUE with a header that records the size
    and [divRoundUp fileSize SectorSize] sectors, the disk is not written,
    and the number of clear bits goes down by the number of sectors. *)
Theorem Allocate_direct_succeeds
    (fuel : nat) (this : FileHeader) (w : FS) (fileSize : Z) :
  0 < SectorSize g -> 0 < NumDirect g ->
  0 <= fileSize <= Level2 g ->
  (Z.to_nat (NumDirect g) <= length (dataSectors this))%nat ->
  divRoundUp fileSize (SectorSize g) <= Bitmap_NumClear (freeMap w) ->
  exists hdr w',
    Allocate g (S fuel) this w fileSize = Done (true, hdr, w') /\
    numBytes hdr = fileSize /\
    numSectors hdr = divRoundUp fileSize (SectorSize g) /\
    disk w' = disk w /\
    Bitmap_NumClear (freeMap w') =
      Bitmap_NumClear (freeMap w) - divRoundUp fileSize (SectorSize g).
Proof.
  intros Hss Hnd Hsz Hlen Hclear.
  destruct (Allocate_direct_Done fuel this w fileSize Hss Hnd Hsz Hlen Hclear)
    as (hdr & w' & Halloc & Hcount).
  exists hdr, w'.
  destruct (Allocate_direct_prefix _ _ _ _ _ _ (proj2 Hsz) Halloc)
    as (ss & Hnb & Hns & _ & _ & Hw' & _).
  split_and!; [done | done | done | by rewrite Hw' | done].
Qed.

(** Property X13. A non-empty direct file that [Allocate] accepted
    is released once: the first [Deallocate] gives back the state before
    [Allocate], and a second [Deallocate] of the same header stops at the
    assertion that the sector ought to be marked. *)
Theorem Deallocate_twice_fails_assertion
    (fuel fuel' fuel'' : nat) (this : FileHeader) (w : FS) (fileSize : Z)
    (hdr : FileHeader) (w' : FS) :
  0 < SectorSize g ->
  0 < fileSize <= Level2 g ->
  Allocate g fuel this w fileSize = Done (true, hdr, w') ->
  Deallocate g (S fuel') hdr w' = Done w /\
  Deallocate g (S fuel'') hdr w = Fault AssertionFailed.
Proof.
  intros Hss Hsz Halloc.
  destruct (Allocate_direct_prefix fuel this w fileSize hdr w'
              (proj2 Hsz) Halloc)
    as (ss & Hnb & Hns & Hlen & Hds & -> & Hnd & Hclear).
  split.
  { destruct w as [map d]. apply Deallocate_direct_restores; try done. lia. }
  assert (0 < divRoundUp fileSize (SectorSize g)).
  { destruct (divRoundUp_range 0 fileSize (SectorSize g) Hss ltac:(lia))
      as [_ Hq].
    by rewrite Z.quot_0_l in Hq by lia. }
  cbn [Deallocate]. rewrite Hnb.
  destruct (Z.gtb_spec fileSize (Level2 g)); [lia|].
  unfold for_loop. rewrite Z.sub_0_r, Hlen.
  destruct ss as [|s ss]; [simpl in Hlen; lia|].
  cbn [length for_loop_n].
  apply Forall_cons in Hclear as [Hs _].
  assert (Hstep : Deallocate_release hdr 0 w = Fault AssertionFailed).
  { unfold Deallocate_release, dataSectors_get, Bitmap_Test.
    simpl. change (Z.to_nat 0) with 0%nat.
    rewrite (Hds 0%nat s eq_refl). simpl.
    pose proof (lookup_lt_Some _ _ _ Hs).
    destruct (Z.leb_spec 0 (Z.of_nat s)); [|lia].
    destruct (Z.ltb_spec (Z.of_nat s) (Z.of_nat (length (freeMap w)))); [|lia].
    simpl. by rewrite Nat2Z.id, Hs. }
  by rewrite Hstep.
Qed.

(** Property X14. In a direct file that [Allocate] accepted, two
    byte offsets of different blocks are mapped by [ByteToSector] to
    different sectors. *)
Theorem direct_blocks_are_distinct
    (fuel fuel' : nat) (this : FileHeader) (w : FS) (fileSize : Z)
    (hdr : FileHeader) (w' : FS) (o1 o2 s1 s2 : Z) :
  0 < SectorSize g ->
  fileSize <= Level2 g ->
  Allocate g fuel this w fileSize = Done (true, hdr, w') ->
  0 <= o1 < fileSize -> 0 <= o2 < fileSize ->
  Z.quot o1 (SectorSize g) <> Z.quot o2 (SectorSize g) ->
  ByteToSector g (S fuel') hdr (disk w') o1 = Done s1 ->
  ByteToSector g (S fuel') hdr (disk w') o2 = Done s2 ->
  s1 <> s2.
Proof.
  intros Hss Hsz Halloc Ho1 Ho2 Hne.
  destruct (Allocate_direct_spec g _ _ _ _ _ _ Hsz Halloc)
    as (ss & Hlen & Hnb & Hns & Hds & _ & _ & Hnd & _).
  cbn [ByteToSector]. rewrite Hnb.
  destruct (Z.gtb_spec fileSize (Level2 g)); [lia|].
  pose proof (divRoundUp_range o1 fileSize (SectorSize g) Hss Ho1) as Hi1.
  pose proof (divRoundUp_range o2 fileSize (SectorSize g) Hss Ho2) as Hi2.
  unfold dataSectors_get.
  destruct (Z.leb_spec 0 (Z.quot o1 (SectorSize g))); [|lia].
  destruct (Z.leb_spec 0 (Z.quot o2 (SectorSize g))); [|lia].
  rewrite Hds, !lookup_app_l by (rewrite length_fmap; lia).
  rewrite !list_lookup_fmap.
  destruct (ss !! Z.to_nat (Z.quot o1 (SectorSize g))) as [p1|] eqn:E1; [|done].
  destruct (ss !! Z.to_nat (Z.quot o2 (SectorSize g))) as [p2|] eqn:E2; [|done].
  simpl. intros [= <-] [= <-] Heq. apply Nat2Z.inj in Heq. subst p2.
  pose proof (NoDup_lookup _ _ _ _ Hnd E1 E2). lia.
Qed.

End DirectMore.

(* --------------------------------------------------------------------- *)
(** ** The file header theorems on the roomy disk                         *)
(* --------------------------------------------------------------------- *)

(** A file of 3841 bytes takes two sub-headers, written to sectors that
    were free. *)
Lemma Allocate_only_claims_free_sectors_witness :
  match Allocate nachos (Allocate_fuel 3841) (new_FileHeader nachos) roomy
                 3841 with
  | Done (ok, hdr, w') =>
      length (freeMap w') = length (freeMap roomy) /\
      (forall p, freeMap roomy !! p = Some true ->
                 freeMap w' !! p = Some true) /\
      (forall s, 0 <= s -> freeMap roomy !! Z.to_nat s = Some true ->
                 disk w' s = disk roomy s) /\
      (forall s, Z.of_nat (length (freeMap roomy)) <= s \/ s < 0 ->
                 disk w' s = disk roomy s)
  | _ => False
  end.
Proof.
  destruct (Allocate nachos (Allocate_fuel 3841) (new_FileHeader nachos)
              roomy 3841) as [[[ok hdr] w']| |] eqn:E.
  - exact (Allocate_only_claims_free_sectors nachos _ _ _ _ ok hdr w' E).
  - vm_compute in E. discriminate.
  - vm_compute in E. discriminate.
Defined.

Lemma Deallocate_only_releases_witness :
  disk roomy = disk roomy_500 /\
  length (freeMap roomy) = length (freeMap roomy_500) /\
  (forall p, freeMap roomy !! p = Some true ->
             freeMap roomy_500 !! p = Some true).
Proof.
  apply (Deallocate_only_releases nachos 1 header_500 roomy_500 roomy).
  vm_compute. reflexivity.
Defined.

Lemma Allocate_direct_succeeds_witness :
  exists hdr w',
    Allocate nachos 1 (new_FileHeader nachos) roomy 500
    = Done (true, hdr, w') /\
    numBytes hdr = 500 /\
    numSectors hdr = divRoundUp 500 (SectorSize nachos) /\
    disk w' = disk roomy /\
    Bitmap_NumClear (freeMap w') =
      Bitmap_NumClear (freeMap roomy) - divRoundUp 500 (SectorSize nachos).
Proof.
  apply (Allocate_direct_succeeds nachos 0 (new_FileHeader nachos) roomy 500).
  - simpl. lia.
  - simpl. lia.
  - vm_compute. split; discriminate.
  - simpl. lia.
  - vm_compute. discriminate.
Defined.

Lemma Deallocate_twice_fails_assertion_witness :
  Deallocate nachos 1 header_500 roomy_500 = Done roomy /\
  Deallocate nachos 1 header_500 roomy = Fault AssertionFailed.
Proof.
  apply (Deallocate_twice_fails_assertion nachos 1 0 0 (new_FileHeader nachos)
           roomy 500 header_500 roomy_500).
  - simpl. lia.
  - vm_compute. split; [reflexivity | discriminate].
  - vm_compute. reflexivity.
Defined.

(** The first and the last byte of the file are in sectors 3 and 6. *)
Lemma direct_blocks_are_distinct_witness :
  ByteToSector nachos 1 header_500 (disk roomy_500) 0 = Done 3 /\
  ByteToSector nachos 1 header_500 (disk roomy_500) 499 = Done 6 /\
  (3 : Z) <> 6.
Proof.
  assert (H0 : ByteToSector nachos 1 header_500 (disk roomy_500) 0 = Done 3)
    by (vm_compute; reflexivity).
  assert (H499 : ByteToSector nachos 1 header_500 (disk roomy_500) 499
                 = Done 6) by (vm_compute; reflexivity).
  split_and!; [exact H0 | exact H499 |].
  apply (direct_blocks_are_distinct nachos 1 0 (new_FileHeader nachos) roomy
           500 header_500 roomy_500 0 499 3 6).
  - simpl. lia.
  - vm_compute. discriminate.
  - vm_compute. reflexivity.
  - lia.
  - lia.
  - vm_compute. discriminate.
  - exact H0.
  - exact H499.
Defined.

(* --------------------------------------------------------------------- *)
(** ** The path walks                                                     *)
(* --------------------------------------------------------------------- *)



(** Claim C2, at a failing input. In the sample file system the file [f]
    exists at the path [a/f], with its header in sector 9. [SysOpen] of
    that path returns 5, the sector of the directory [a], and puts an open
    file on sector 5 in [fileDescriptor]. For [a/nofile], which does not
    exist, it returns 5 as well, not -1. *)
Theorem OpenAFile_stops_at_first_component :
  Reaches sample_fs DirectorySector ["a"; "f"]%string 9 /\
  SysOpen sample_fs "a/f" =
    Done (5, mkFileSystem (directoryFile sample_fs) (Some (mkOpenFile 5)) (tableOf sample_fs)) /\
  Reaches sample_fs DirectorySector ["a"%string] 5 /\
  Missing sample_fs 5 "nofile" /\
  (exists fs', SysOpen sample_fs "a/nofile" = Done (5, fs')).
Proof.
  split_and!.
  - eapply Reaches_cons; [reflexivity | done |].
    eapply Reaches_cons; [reflexivity | done |]. constructor.
  - reflexivity.
  - eapply Reaches_cons; [reflexivity | done |]. constructor.
  - reflexivity.
  - eexists. reflexivity.
Qed.

Lemma Open_while_deepest fs : forall tokens dir,
  exists pre post,
    tokens = pre ++ post /\
    Reaches fs dir pre (hdrSector (Open_while fs (mkOpenFile dir) tokens)) /\
    match post with
    | [] => True
    | c :: _ => Missing fs (hdrSector (Open_while fs (mkOpenFile dir) tokens)) c
    end.
Proof.
  induction tokens as [|c rest IH]; intros dir; simpl.
  - exists [], []. split_and!; [done | constructor | done].
  - unfold Directory_FetchFrom. simpl.
    destruct (Z.eqb_spec (Directory_Find (tableOf fs dir) c) (-1)) as [E|E].
    + exists [], (c :: rest). split_and!; [done | constructor | done].
    + destruct (IH (Directory_Find (tableOf fs dir) c)) as (pre & post & -> & Hr & Hm).
      exists (c :: pre), post. split_and!; [done | | done].
      by eapply Reaches_cons.
Qed.

(** Claim C10. [Open] never returns [NULL]. Its result is the open file
    reached by the longest prefix of the path whose components are all
    found, one directory after the other from the root: either the whole
    path was found, or the next component is missing from the directory
    reached. When the first component is missing from the root, the result
    is the root directory's open file. *)
Theorem Open_returns_deepest_reached (fs : FileSystem) (nm : string) :
  Open fs nm <> None /\
  (exists d pre post,
     Open fs nm = Some d /\
     strtok nm = pre ++ post /\
     Reaches fs (hdrSector (directoryFile fs)) pre (hdrSector d) /\
     match post with [] => True | c :: _ => Missing fs (hdrSector d) c end) /\
  (forall c rest,
     strtok nm = c :: rest ->
     Missing fs (hdrSector (directoryFile fs)) c ->
     Open fs nm = Some (directoryFile fs)).
Proof.
  unfold Open. split_and!; [done | |].
  - destruct (Open_while_deepest fs (strtok nm) (hdrSector (directoryFile fs)))
      as (pre & post & Htok & Hr & Hm).
    destruct (directoryFile fs) as [root]. simpl in *.
    by exists (Open_while fs (mkOpenFile root) (strtok nm)), pre, post.
  - intros c rest -> Hmiss. simpl. unfold Directory_FetchFrom, Missing in *.
    by rewrite Hmiss.
Qed.

(** [g] is in the root; [a/zzz] stops in [a]; [zzz] stops at the root. *)
Example Open_samples :
  Open sample_fs "g" = Some (mkOpenFile 7) /\
  Open sample_fs "/a/f" = Some (mkOpenFile 9) /\
  Open sample_fs "a/zzz" = Some (mkOpenFile 5) /\
  Open sample_fs "zzz" = Some (directoryFile sample_fs).
Proof. repeat split. Qed.

(** A file of the root directory is opened as the claim says. *)
Example OpenAFile_in_root :
  OpenAFile sample_fs "g" =
  Done (7, mkFileSystem (directoryFile sample_fs) (Some (mkOpenFile 7)) (tableOf sample_fs)).
Proof. reflexivity. Qed.

(** A path without a component hands [NULL] to [Find]. *)
Example OpenAFile_empty_path : OpenAFile sample_fs "/" = Fault NullPointer.
Proof. reflexivity. Qed.


(* --------------------------------------------------------------------- *)
(** ** Opening and closing                                                *)
(* --------------------------------------------------------------------- *)

Lemma Open_while_Reaches fs : forall path dir s,
  Reaches fs dir path s ->
  Open_while fs (mkOpenFile dir) path = mkOpenFile s.
Proof.
  intros path dir s H. induction H as [|dir c path s s' Hf Hne _ IH]; [done|].
  simpl. unfold Directory_FetchFrom. simpl. rewrite Hf.
  by destruct (Z.eqb_spec s (-1)).
Qed.

(** Property X15. When every component of a path is found, one
    directory after the other from the root, [Open] returns the file whose
    header is in the sector the last component leads to. *)
Theorem Open_finds_existing_path (fs : FileSystem) (nm : string) (s : Z) :
  Reaches fs (hdrSector (directoryFile fs)) (strtok nm) s ->
  Open fs nm = Some (mkOpenFile s).
Proof.
  intros H. unfold Open. f_equal.
  destruct (directoryFile fs) as [root]. by apply Open_while_Reaches.
Qed.

(** Property X16. [SysOpen] answers -1 and changes nothing, or
    answers the sector of the header it found, at least 0, and leaves that
    file in the descriptor slot; the next [SysClose] then answers 1 and
    empties the slot whatever id it is handed, and one more [SysClose]
    answers -1. *)
Theorem descriptor_slot_protocol (fs : FileSystem) (nm : string)
    (id : Z) (fs' : FileSystem) :
  SysOpen fs nm = Done (id, fs') ->
  (id < 0 -> id = -1 /\ fs' = fs) /\
  (0 <= id ->
   fileDescriptor fs' = Some (mkOpenFile id) /\
   forall id' id'',
     fst (SysClose fs' id') = 1 /\
     fileDescriptor (snd (SysClose fs' id')) = None /\
     fst (SysClose (snd (SysClose fs' id')) id'') = -1).
Proof.
  unfold SysOpen, OpenAFile.
  destruct (OpenAFile_while _ _ _) as [[tmpName|] directory]; [|done].
  destruct (Z.geb_spec (Directory_Find
              (Directory_FetchFrom fs (directoryFile fs)) tmpName) 0).
  - intros [= <- <-]. split; [lia|]. intros _. done.
  - intros [= <- <-]. split; [done|]. lia.
Qed.


(* --------------------------------------------------------------------- *)
(** ** Directory tables                                                   *)
(* --------------------------------------------------------------------- *)

Lemma Directory_has_false_Find table nm :
  Directory_has table nm = false -> Directory_Find table nm = -1.
Proof.
  induction table as [|e t IH]; simpl; [done|].
  destruct (inUse e && String.eqb (name e) nm); simpl; [done | exact IH].
Qed.

Lemma Directory_place_room table e :
  Directory_has_room table = true -> is_Some (Directory_place table e).
Proof.
  induction table as [|x t IH]; simpl; [done|].
  destruct (inUse x); simpl; [|eauto].
  intros [t' ->]%IH. eauto.
Qed.

Lemma Directory_place_lookup table nm s isDir t1 :
  Directory_has table nm = false ->
  Directory_place table (mkDirectoryEntry true isDir s nm) = Some t1 ->
  (forall nm', Directory_Find t1 nm' =
               if String.eqb nm nm' then s else Directory_Find table nm') /\
  Directory_isDirectory t1 nm = isDir /\
  exists t2,
    Directory_Remove t1 nm = (true, t2) /\
    forall nm', Directory_Find t2 nm' = Directory_Find table nm'.
Proof.
  revert t1. induction table as [|x t IH]; intros t1; simpl; [done|].
  destruct (inUse x) eqn:Ex; simpl.
  - destruct (String.eqb_spec (name x) nm) as [En|En]; [done|]. simpl.
    intros Hhas. destruct (Directory_place t _) as [t'|] eqn:Ep; [|done].
    intros [= <-]. destruct (IH t' Hhas eq_refl) as (Hf & Hd & t2 & Hr & Hf2).
    simpl. rewrite Ex. simpl.
    destruct (String.eqb_spec (name x) nm); [done|]. split_and!.
    + intros nm'. rewrite Hf.
      destruct (String.eqb_spec (name x) nm') as [E1|E1]; [|done].
      destruct (String.eqb_spec nm nm'); [congruence | done].
    + done.
    + rewrite Hr. eexists. split; [done|]. intros nm'. simpl.
      by rewrite Ex, Hf2.
  - intros _ [= <-]. simpl. rewrite String.eqb_refl. split_and!.
    + intros nm'. rewrite ?Ex. simpl. by destruct (String.eqb nm nm').
    + done.
    + eexists. split; [done|]. intros nm'. simpl. by rewrite ?Ex.
Qed.

(* --------------------------------------------------------------------- *)
(** ** [Create] and [Remove]                                              *)
(* --------------------------------------------------------------------- *)

Lemma Create_while_Reaches fs : forall pre dir d,
  Reaches fs dir pre d -> forall dobj c rest,
  hdrSector dobj = dir ->
  Directory_Find (tableOf fs d) c = -1 ->
  exists dobj', hdrSector dobj' = d /\
    Create_while fs (tableOf fs dir) dobj (pre ++ c :: rest)
    = (Some c, tableOf fs d, dobj').
Proof.
  intros pre dir d H.
  induction H as [dir|dir c0 path s s' Hf Hne _ IH]; intros dobj c rest Hd Hc.
  - exists dobj. split; [done|]. simpl. by rewrite Hc.
  - simpl. rewrite Hf. destruct (Z.eqb_spec s (-1)); [done|].
    unfold Directory_FetchFrom. simpl. by apply IH.
Qed.



Lemma OpenFile_eta (o : OpenFile) : mkOpenFile (hdrSector o) = o.
Proof. by destruct o. Qed.

Section CreateRemove.
Variable g : Geometry.
Variable ct : Contents.

Lemma Contents_WriteBack_other file image d s :
  s ∉ contentSectors ct file -> Contents_WriteBack ct file image d s = d s.
Proof. intros Hs. unfold Contents_WriteBack. by rewrite bool_decide_false. Qed.

Lemma Create_at fuel v nm pre c rest d size :
  0 < SectorSize g -> 0 < NumDirect g ->
  strtok nm = pre ++ c :: rest ->
  Reaches (vol_fs v) (hdrSector (directoryFile (vol_fs v))) pre d ->
  Directory_has (tableOf (vol_fs v) d) c = false ->
  Directory_has_room (tableOf (vol_fs v) d) = true ->
  (length (vol_map v) <= Z.to_nat (NumSectors g))%nat ->
  0 <= size <= Level2 g ->
  1 + divRoundUp size (SectorSize g) <= Bitmap_NumClear (vol_map v) ->
  exists (p : nat) (ss : list nat) (hdr : FileHeader) (t1 : Directory),
    vol_map v !! p = Some false /\
    Directory_place (tableOf (vol_fs v) d)
      (mkDirectoryEntry true false (Z.of_nat p) c) = Some t1 /\
    numBytes hdr = size /\
    Z.to_nat (numSectors hdr) = length ss /\
    Z.of_nat (length ss) = divRoundUp size (SectorSize g) /\
    (forall j s, ss !! j = Some s -> dataSectors hdr !! j = Some (Z.of_nat s)) /\
    NoDup ss /\
    Forall (fun s => <[p := true]> (vol_map v) !! s = Some false) ss /\
    Bitmap_NumClear (set_bits true ss (<[p := true]> (vol_map v)))
      = Bitmap_NumClear (vol_map v) - 1 - divRoundUp size (SectorSize g) /\
    Create g ct (S fuel) v nm size =
    Done (true,
          mkVolume
            (Directory_WriteBack t1 (mkOpenFile d) (vol_fs v))
            (set_bits true ss (<[p := true]> (vol_map v)))
            (Contents_WriteBack ct freeMapFile
               (bitmapImage ct (set_bits true ss (<[p := true]> (vol_map v))))
               (Contents_WriteBack ct (mkOpenFile d) (tableImage ct t1)
                  (fun s => if s =? Z.of_nat p then hdr else vol_disk v s)))).
Proof.
  intros Hss Hnd Htok Hreach Hhas Hroom Hlen Hsz Hclear.
  unfold Create. rewrite Htok. unfold Directory_FetchFrom at 1.
  pose proof (Directory_has_false_Find _ _ Hhas) as Hfind.
  destruct (Create_while_Reaches _ _ _ _ Hreach (directoryFile (vol_fs v))
              c rest eq_refl Hfind) as (dobj' & Hd' & ->).
  rewrite Hfind. cbn [Z.eqb negb Pos.eqb].
  assert (Hdiv : 0 <= divRoundUp size (SectorSize g)).
  { rewrite divRoundUp_ceiling by done.
    pose proof (Z.div_mod (- size) (SectorSize g)).
    pose proof (Z.mod_pos_bound (- size) (SectorSize g)). nia. }
  unfold Bitmap_FindAndSet.
  destruct (FindAndSet_from_finds (vol_map v) 0 ltac:(lia)) as (p & -> & Hp).
  rewrite Z.add_0_l.
  pose proof (lookup_lt_Some _ _ _ Hp) as Hpl.
  destruct (Z.eqb_spec (Z.of_nat p) (-1)); [lia|].
  unfold Directory_Add. rewrite Hhas.
  destruct (Directory_place_room (tableOf (vol_fs v) d)
              (mkDirectoryEntry true false (Z.of_nat p) c) Hroom) as [t1 Ht1].
  rewrite Ht1. cbn [negb].
  destruct (Allocate_direct_Done g fuel (new_FileHeader g)
              (mkFS (<[p := true]> (vol_map v)) (vol_disk v)) size)
    as (hdr & w' & Halloc & Hcount); try done.
  { simpl. by rewrite length_replicate. }
  { simpl. rewrite Bitmap_NumClear_set by done. lia. }
  rewrite Halloc. simpl in Hcount.
  destruct (Allocate_direct_prefix g _ _ _ _ _ _ (proj2 Hsz) Halloc)
    as (ss & Hnb & Hns & Hl & Hds & -> & Hnodup & Hfree).
  simpl in *. unfold WriteBack, in_disk.
  destruct (Z.leb_spec 0 (Z.of_nat p)); [|lia].
  destruct (Z.ltb_spec (Z.of_nat p) (NumSectors g)); [|lia].
  simpl. exists p, ss, hdr, t1.
  rewrite Bitmap_NumClear_set in Hcount by done.
  destruct dobj' as [x]. simpl in Hd'. subst x.
  split_and!; try done; lia.
Qed.

(** Property X17. [Create] stops at the first component of
    the path that is missing from the directory reached so far, and
    creates the file under that name there: the components after it make
    no difference. *)
Theorem Create_stops_at_first_missing_component
    (fuel : nat) (v : Volume) (nm nm' : string) (pre : list string)
    (c : string) (rest : list string) (d : Z) (size : Z) :
  strtok nm = pre ++ c :: rest ->
  strtok nm' = pre ++ [c] ->
  Reaches (vol_fs v) (hdrSector (directoryFile (vol_fs v))) pre d ->
  Missing (vol_fs v) d c ->
  Create g ct fuel v nm size = Create g ct fuel v nm' size.
Proof.
  intros Htok Htok' Hreach Hmiss. unfold Create. rewrite Htok, Htok'.
  unfold Directory_FetchFrom at 1 2.
  destruct (Create_while_Reaches _ _ _ _ Hreach (directoryFile (vol_fs v))
              c rest eq_refl Hmiss) as (dobj1 & Hd1 & ->).
  destruct (Create_while_Reaches _ _ _ _ Hreach (directoryFile (vol_fs v))
              c [] eq_refl Hmiss) as (dobj2 & Hd2 & ->).
  destruct dobj1, dobj2. simpl in *. by subst.
Qed.

(** Property X18. A [Create] that answers FALSE leaves the volume
    (name space, persisted free map, disk) as it was: the header sector it
    claimed and the directory entry it added stay in memory, and a failed
    [Allocate] has claimed nothing. *)
Theorem Create_failure_leaves_no_trace
    (fuel : nat) (v : Volume) (nm : string) (size : Z) (v' : Volume) :
  Create g ct fuel v nm size = Done (false, v') -> v' = v.
Proof.
  unfold Create.
  destruct (Create_while _ _ _ _) as [[[tmpName|] directory] directoryObj];
    [|done].
  case_match; [by intros [= <-]|].
  destruct (Bitmap_FindAndSet (vol_map v)) as [sec map].
  case_match; [by intros [= <-]|].
  destruct (Directory_Add directory tmpName sec false) as [added directory'].
  case_match; [by intros [= <-]|].
  intros ([[ok hdr] w] & Halloc & Hrest)%bind_Done_inv.
  destruct ok; simpl in Hrest.
  - apply bind_Done_inv in Hrest as (d0 & _ & [=]).
  - apply Allocate_false_unchanged in Halloc. subst w.
    injection Hrest as <-. by destruct v.
Qed.


(** Property X20. [SysCreate] of a new name in the root, for a file
    of at most [Level2] bytes, followed by [Remove] of the same name, on a
    volume that keeps the contents of the root directory and of the bitmap
    in marked sectors: both answer TRUE, the persisted free map is the one
    before [Create], every directory lookup answers as before, [Open] of
    the name returns the root directory again, and the disk differs at
    most in the sector that held the header, which is free, and in the
    sectors that hold the root directory and the bitmap. *)
Theorem Create_then_Remove_round_trip
    (fuel fuel' : nat) (v : Volume) (nm : string) (c : string) (size : Z) :
  0 < SectorSize g -> 0 < NumDirect g ->
  strtok nm = [c] ->
  Directory_has (rootOf (vol_fs v)) c = false ->
  Directory_has_room (rootOf (vol_fs v)) = true ->
  (length (vol_map v) <= Z.to_nat (NumSectors g))%nat ->
  contents_marked ct (directoryFile (vol_fs v)) (vol_map v) ->
  contents_marked ct freeMapFile (vol_map v) ->
  0 <= size <= Level2 g ->
  1 + divRoundUp size (SectorSize g) <= Bitmap_NumClear (vol_map v) ->
  exists (v' v'' : Volume) (p : nat),
    SysCreate g ct (S fuel) v nm size = Done (true, v') /\
    Remove g ct (S fuel') v' nm = Done (true, v'') /\
    vol_map v'' = vol_map v /\
    (forall s nm', Directory_Find (tableOf (vol_fs v'') s) nm'
                   = Directory_Find (tableOf (vol_fs v) s) nm') /\
    Open (vol_fs v'') nm = Some (directoryFile (vol_fs v)) /\
    vol_map v !! p = Some false /\
    (forall s, s <> Z.of_nat p ->
               s ∉ contentSectors ct (directoryFile (vol_fs v)) ->
               s ∉ contentSectors ct freeMapFile ->
               vol_disk v'' s = vol_disk v s).
Proof.
  intros Hss Hnd Htok Hhas Hroom Hlen Hmd Hmf Hsz Hclear.
  unfold rootOf, Directory_FetchFrom in Hhas, Hroom.
  destruct (Create_at fuel v nm [] c [] _ size Hss Hnd Htok
              (Reaches_nil _ _) Hhas Hroom Hlen Hsz Hclear)
    as (p & ss & hdr & t1 & Hp & Ht1 & Hnb & Hns & Hl & Hds & Hnodup & Hfree
        & Hcount & Hcreate).
  rewrite OpenFile_eta in Hcreate.
  destruct (Directory_place_lookup _ _ _ _ _ Hhas Ht1)
    as (Hfind & Hisdir & t2 & Hrem & Hfind2).
  pose proof (lookup_lt_Some _ _ _ Hp) as Hpl.
  assert (Hfc : Directory_Find t1 c = Z.of_nat p).
  { by rewrite Hfind, String.eqb_refl. }
  assert (Hpd : Z.of_nat p ∉ contentSectors ct (directoryFile (vol_fs v))).
  { intros [_ Hm]%Hmd. rewrite Nat2Z.id in Hm. congruence. }
  assert (Hpf : Z.of_nat p ∉ contentSectors ct freeMapFile).
  { intros [_ Hm]%Hmf. rewrite Nat2Z.id in Hm. congruence. }
  set (map' := set_bits true ss (<[p := true]> (vol_map v))) in *.
  set (disk' :=
         Contents_WriteBack ct freeMapFile (bitmapImage ct map')
           (Contents_WriteBack ct (directoryFile (vol_fs v))
              (tableImage ct t1)
              (fun s => if s =? Z.of_nat p then hdr else vol_disk v s)))
    in *.
  assert (Hhdr : disk' (Z.of_nat p) = hdr).
  { unfold disk'. rewrite !Contents_WriteBack_other by done.
    by rewrite Z.eqb_refl. }
  assert (Hblocks :
    Remove_blocks g (S fuel') (Z.of_nat p) (mkFS map' disk')
    = Done (mkFS (vol_map v) disk')).
  { unfold Remove_blocks, FetchFrom, in_disk.
    destruct (Z.leb_spec 0 (Z.of_nat p)); [|lia].
    destruct (Z.ltb_spec (Z.of_nat p) (NumSectors g)); [|lia].
    cbn [andb mbind outcome_bind disk]. rewrite Hhdr.
    unfold map'.
    rewrite (Deallocate_direct_restores g fuel' hdr ss
               (<[p := true]> (vol_map v)) disk') by (done || lia).
    cbn [mbind outcome_bind freeMap disk]. unfold Bitmap_Clear.
    rewrite length_insert.
    destruct (Z.ltb_spec (Z.of_nat p) (Z.of_nat (length (vol_map v))));
      [|lia].
    cbn [andb mbind outcome_bind]. rewrite Nat2Z.id.
    rewrite list_insert_insert_eq, list_insert_id by done.
    destruct (Z.leb_spec 0 (Z.of_nat p)); [done|lia]. }
  eexists _, _, p. split; [exact Hcreate|].
  unfold Remove. rewrite Htok. cbn [vol_fs vol_map vol_disk Remove_while].
  unfold Directory_FetchFrom, Directory_WriteBack.
  cbn [tableOf directoryFile hdrSector].
  rewrite Z.eqb_refl, Hfc, Hisdir.
  destruct (Z.eqb_spec (Z.of_nat p) (-1)); [lia|].
  cbn [orb negb rx_sector rx_isFile rx_directoryObj rx_tmpName].
  destruct (Z.eqb_spec (Z.of_nat p) (-1)); [lia|].
  rewrite Z.eqb_refl, Hfc. rewrite Hblocks.
  cbn [mbind outcome_bind]. rewrite Hrem. cbn [freeMap disk].
  split; [reflexivity|]. cbn [vol_fs vol_map vol_disk tableOf].
  assert (Hframe : forall s nm',
            Directory_Find
              (if s =? hdrSector (directoryFile (vol_fs v)) then t2
               else if s =? hdrSector (directoryFile (vol_fs v)) then t1
               else tableOf (vol_fs v) s) nm'
            = Directory_Find (tableOf (vol_fs v) s) nm').
  { intros s nm'.
    destruct (Z.eqb_spec s (hdrSector (directoryFile (vol_fs v)))) as [->|];
      [apply Hfind2 | done]. }
  split_and!; try done.
  - unfold Open. f_equal. rewrite Htok. cbn [Open_while directoryFile].
    unfold Directory_FetchFrom. cbn [tableOf].
    rewrite Hframe, (Directory_has_false_Find _ _ Hhas). done.
  - intros s Hs Hsd Hsf. unfold disk'.
    rewrite !Contents_WriteBack_other by done.
    by destruct (Z.eqb_spec s (Z.of_nat p)).
Qed.

(** Property X21. [Remove] stops at a first component that is
    not a directory of the root: the components after it make no
    difference (with a file [g] in the root, removing "g/x" removes [g]),
    and when the component is missing from the root [Remove] answers FALSE
    and changes nothing. *)
Theorem Remove_stops_at_first_non_directory
    (fuel : nat) (v : Volume) (nm nm' : string) (c : string)
    (rest rest' : list string) :
  strtok nm = c :: rest ->
  strtok nm' = c :: rest' ->
  Directory_isDirectory (rootOf (vol_fs v)) c = false ->
  Remove g ct fuel v nm = Remove g ct fuel v nm' /\
  (Directory_Find (rootOf (vol_fs v)) c = -1 ->
   Remove g ct fuel v nm = Done (false, v)).
Proof.
  intros Htok Htok' Hnd. unfold Remove. rewrite Htok, Htok'.
  cbn [Remove_while]. fold (rootOf (vol_fs v)). rewrite Hnd.
  rewrite orb_true_r. split; [done|].
  cbn [rx_sector]. by intros ->.
Qed.

(** Property X22. When [Remove] returns, the persisted free map has the
    same length and no bit newly marked; the disk differs from the one
    before at most in the sectors that hold the directory written back and
    the bitmap; and on the answer FALSE the whole volume is as before. *)
Theorem Remove_only_releases
    (fuel : nat) (v : Volume) (nm : string) (ok : bool) (v' : Volume) :
  Remove g ct fuel v nm = Done (ok, v') ->
  length (vol_map v') = length (vol_map v) /\
  (forall p, vol_map v' !! p = Some true -> vol_map v !! p = Some true) /\
  (exists file : OpenFile,
     forall s, s ∉ contentSectors ct file ->
               s ∉ contentSectors ct freeMapFile ->
               vol_disk v' s = vol_disk v s) /\
  (ok = false -> v' = v).
Proof.
  unfold Remove. destruct (strtok nm) as [|first rest]; [done|].
  set (x := Remove_while _ _ _ _ _ _ _).
  case_match.
  { intros [= <- <-]. split_and!; try done. by exists (directoryFile (vol_fs v)). }
  cbv zeta.
  set (file := if rx_isFile x then rx_directoryObj x
               else rx_prevdirectoryObj x).
  match goal with
  | |- context [Remove_blocks g fuel ?s _] => generalize s; intros sec
  end.
  intros (w & Hblocks & Hrest)%bind_Done_inv.
  destruct (Directory_Remove _ _) as [found directory].
  injection Hrest as <- <-. cbn [vol_map vol_disk].
  unfold Remove_blocks in Hblocks.
  apply bind_Done_inv in Hblocks as (fileHdr & _ & Hblocks).
  apply bind_Done_inv in Hblocks as (w1 & Hd & Hblocks).
  apply bind_Done_inv in Hblocks as (map & Hc & [= <-]).
  apply Deallocate_releases in Hd as (Hdisk & Hlen & Hbits).
  cbn [freeMap disk] in *. unfold Bitmap_Clear in Hc.
  case_match; [|done]. injection Hc as <-.
  split_and!; [by rewrite length_insert | | | done].
  - intros p Hp. apply Hbits.
    destruct (decide (p = Z.to_nat sec)) as [->|Hne].
    + apply lookup_lt_Some in Hp as Hlt. rewrite length_insert in Hlt.
      rewrite list_lookup_insert_eq in Hp; done.
    + by rewrite list_lookup_insert_ne in Hp.
  - exists file. intros s Hs Hsf.
    rewrite !Contents_WriteBack_other by done. by rewrite Hdisk.
Qed.

(** Property X23. When [Create] returns, with either answer, the
    persisted free map has the same length and every marked sector is
    still marked, and, the sectors that hold the directory written back
    and the bitmap apart, the disk is unchanged in every sector that was
    marked before and in every sector outside the map. *)
Theorem Create_only_claims
    (fuel : nat) (v : Volume) (nm : string) (size : Z)
    (ok : bool) (v' : Volume) :
  Create g ct fuel v nm size = Done (ok, v') ->
  length (vol_map v') = length (vol_map v) /\
  (forall p, vol_map v !! p = Some true -> vol_map v' !! p = Some true) /\
  exists file : OpenFile,
    (forall s, 0 <= s -> vol_map v !! Z.to_nat s = Some true ->
               s ∉ contentSectors ct file ->
               s ∉ contentSectors ct freeMapFile ->
               vol_disk v' s = vol_disk v s) /\
    (forall s, Z.of_nat (length (vol_map v)) <= s \/ s < 0 ->
               s ∉ contentSectors ct file ->
               s ∉ contentSectors ct freeMapFile ->
               vol_disk v' s = vol_disk v s).
Proof.
  intros H.
  assert (Hc : exists (file : OpenFile) (d0 : Disk),
            only_claims (mkFS (vol_map v) (vol_disk v))
                        (mkFS (vol_map v') d0) /\
            forall s, s ∉ contentSectors ct file ->
                      s ∉ contentSectors ct freeMapFile ->
                      vol_disk v' s = d0 s).
  { revert H. unfold Create.
    destruct (Create_while _ _ _ _) as [[[tmpName|] directory] directoryObj];
      [|done].
    assert (Hsame : forall b, Done (false, v) = Done (b, v') ->
              exists (file : OpenFile) (d0 : Disk),
                only_claims (mkFS (vol_map v) (vol_disk v))
                            (mkFS (vol_map v') d0) /\
                forall s, s ∉ contentSectors ct file ->
                          s ∉ contentSectors ct freeMapFile ->
                          vol_disk v' s = d0 s).
    { intros b [= <- <-]. exists directoryObj, (vol_disk v).
      split; [apply only_claims_refl | done]. }
    case_match; [by apply Hsame|].
    destruct (Bitmap_FindAndSet (vol_map v)) as [sec map] eqn:E.
    case_match; [by apply Hsame|].
    destruct (Directory_Add directory tmpName sec false) as [added directory'].
    case_match; [by apply Hsame|].
    intros ([[ok' hdr] w] & Halloc & Hrest)%bind_Done_inv.
    destruct ok'; simpl in Hrest.
    - apply bind_Done_inv in Hrest as (d0 & Hwb & [= <- <-]).
      cbn [vol_map vol_disk]. exists directoryObj, d0. split.
      2:{ intros s Hs Hsf. by rewrite !Contents_WriteBack_other. }
      unfold Bitmap_FindAndSet in E. apply FindAndSet_from_spec in E.
      destruct E as [[-> _]|(p & -> & Hp & ->)]; [done|].
      rewrite Z.add_0_l in *.
      pose proof (lookup_lt_Some _ _ _ Hp) as Hpl.
      assert (Hbase : only_claims (mkFS (vol_map v) (vol_disk v))
                     (mkFS (<[p := true]> (vol_map v)) (vol_disk v))).
      { split_and!; cbn [freeMap disk].
        - by rewrite length_insert.
        - intros q Hq. destruct (decide (q = p)) as [->|]; [congruence|].
          by rewrite list_lookup_insert_ne.
        - done. }
      apply (proj1 (Allocate_only_claims_fuel g fuel)) in Halloc.
      cbn [snd] in Halloc.
      pose proof (only_claims_trans _ _ _ Hbase Halloc) as Hboth.
      eapply WriteBack_claimed; [exact Hboth | | | exact Hwb].
      + cbn [freeMap]. by rewrite Nat2Z.id.
      + rewrite Nat2Z.id. destruct Halloc as (_ & M & _). apply M.
        cbn [freeMap]. by apply list_lookup_insert_eq.
    - apply Allocate_false_unchanged in Halloc. subst w.
      injection Hrest as <- <-. exists directoryObj, (vol_disk v).
      split; [apply only_claims_refl | done]. }
  destruct Hc as (file & d0 & (L & M & D) & Hd0). cbn [freeMap disk] in *.
  split_and!; [done | done |]. exists file. split.
  - intros s Hs Hm Hsd Hsf. rewrite Hd0 by done.
    apply D. intros (_ & Hf & _). congruence.
  - intros s Hs Hsd Hsf. rewrite Hd0 by done.
    apply D. intros (Hnn & Hf & _).
    apply lookup_lt_Some in Hf. lia.
Qed.

End CreateRemove.

(* --------------------------------------------------------------------- *)
(** ** The name-space theorems at the sample volume                       *)
(* --------------------------------------------------------------------- *)

Lemma Open_finds_existing_path_witness :
  Open sample_fs "/a/f" = Some (mkOpenFile 9).
Proof.
  apply (Open_finds_existing_path sample_fs "/a/f" 9).
  apply (Reaches_cons _ _ "a" ["f"%string] 5 9); [reflexivity | discriminate |].
  apply (Reaches_cons _ _ "f" [] 9 9); [reflexivity | discriminate |].
  apply Reaches_nil.
Defined.

(** [g] is found in sector 7; the slot is then taken, and given back by
    the first [SysClose] whatever id it is handed. *)
Lemma descriptor_slot_protocol_witness :
  fileDescriptor (snd (SysClose
     (mkFileSystem (directoryFile sample_fs) (Some (mkOpenFile 7))
                   (tableOf sample_fs)) 3)) = None.
Proof.
  apply (descriptor_slot_protocol sample_fs "g" 7
           (mkFileSystem (directoryFile sample_fs) (Some (mkOpenFile 7))
                         (tableOf sample_fs))
           ltac:(reflexivity)).
  - lia.
  - exact 0.
Defined.

Lemma sample_volume_a : 
  Reaches (vol_fs sample_volume)
          (hdrSector (directoryFile (vol_fs sample_volume))) ["a"%string] 5.
Proof.
  apply (Reaches_cons _ _ "a" [] 5 5); [reflexivity | discriminate |].
  apply Reaches_nil.
Defined.

Lemma sample_volume_marked (file : OpenFile) :
  contents_marked sample_contents file (vol_map sample_volume).
Proof.
  intros s Hs. unfold sample_contents in Hs. cbn [contentSectors] in Hs.
  repeat case_match;
    repeat (apply elem_of_cons in Hs as [->|Hs];
            [split; [lia | vm_compute; reflexivity]|]);
    by apply elem_of_nil in Hs.
Defined.

(** In [a] there is no [n]: "a/n/x/y" creates the file [n] in [a]. *)
Lemma Create_stops_at_first_missing_component_witness :
  Create nachos sample_contents 1 sample_volume "a/n/x/y" 500
  = Create nachos sample_contents 1 sample_volume "a/n" 500.
Proof.
  apply (Create_stops_at_first_missing_component nachos sample_contents 1
           sample_volume "a/n/x/y" "a/n" ["a"%string] "n"
           ["x"%string; "y"%string] 5 500).
  - reflexivity.
  - reflexivity.
  - exact sample_volume_a.
  - reflexivity.
Defined.

(** 31 free sectors are not enough for a header and 32 data sectors. *)
Lemma Create_failure_leaves_no_trace_witness :
  Create nachos sample_contents 1 full_volume "n" 4096
  = Done (false, full_volume).
Proof.
  assert (H : exists v', Create nachos sample_contents 1 full_volume "n" 4096
                         = Done (false, v')).
  { eexists. vm_compute. reflexivity. }
  destruct H as [v' H].
  rewrite H. f_equal. f_equal.
  apply (Create_failure_leaves_no_trace nachos sample_contents 1 full_volume
           "n" 4096 v' H).
Defined.


Lemma Create_then_Remove_round_trip_witness :
  exists (v' v'' : Volume),
    SysCreate nachos sample_contents 1 sample_volume "n" 500
    = Done (true, v') /\
    Remove nachos sample_contents 1 v' "n" = Done (true, v'') /\
    vol_map v'' = vol_map sample_volume /\
    Open (vol_fs v'') "n" = Some (directoryFile (vol_fs sample_volume)).
Proof.
  destruct (Create_then_Remove_round_trip nachos sample_contents 0 0
              sample_volume "n" "n" 500)
    as (v' & v'' & p & Hc & Hr & Hm & _ & Ho & _).
  - simpl. lia.
  - simpl. lia.
  - reflexivity.
  - reflexivity.
  - reflexivity.
  - vm_compute. lia.
  - apply sample_volume_marked.
  - apply sample_volume_marked.
  - vm_compute. split; discriminate.
  - vm_compute. discriminate.
  - exists v', v''. split_and!; done.
Defined.

(** [g] is a file of the root: "g/x" removes [g]. *)
Lemma Remove_stops_at_first_non_directory_witness :
  Remove nachos sample_contents 1 sample_volume "g/x"
  = Remove nachos sample_contents 1 sample_volume "g".
Proof.
  apply (Remove_stops_at_first_non_directory nachos sample_contents 1
           sample_volume "g/x" "g" "g" ["x"%string] []); reflexivity.
Defined.

Lemma Remove_only_releases_witness :
  match Remove nachos sample_contents 1 sample_volume "g" with
  | Done (ok, v') =>
      length (vol_map v') = length (vol_map sample_volume) /\
      (forall p, vol_map v' !! p = Some true ->
                 vol_map sample_volume !! p = Some true) /\
      (exists file : OpenFile,
         forall s, s ∉ contentSectors sample_contents file ->
                   s ∉ contentSectors sample_contents freeMapFile ->
                   vol_disk v' s = vol_disk sample_volume s) /\
      (ok = false -> v' = sample_volume)
  | _ => False
  end.
Proof.
  destruct (Remove nachos sample_contents 1 sample_volume "g")
    as [[ok v']| |] eqn:E.
  - exact (Remove_only_releases nachos sample_contents 1 sample_volume "g"
             ok v' E).
  - vm_compute in E. discriminate.
  - vm_compute in E. discriminate.
Defined.

(** A file of 3841 bytes: [Allocate] writes two sub-headers. *)
Lemma Create_only_claims_witness :
  match Create nachos sample_contents (Allocate_fuel 3841) sample_volume
               "big" 3841 with
  | Done (ok, v') =>
      length (vol_map v') = length (vol_map sample_volume) /\
      (forall p, vol_map sample_volume !! p = Some true ->
                 vol_map v' !! p = Some true) /\
      exists file : OpenFile,
        (forall s, 0 <= s ->
                   vol_map sample_volume !! Z.to_nat s = Some true ->
                   s ∉ contentSectors sample_contents file ->
                   s ∉ contentSectors sample_contents freeMapFile ->
                   vol_disk v' s = vol_disk sample_volume s) /\
        (forall s, Z.of_nat (length (vol_map sample_volume)) <= s \/ s < 0 ->
                   s ∉ contentSectors sample_contents file ->
                   s ∉ contentSectors sample_contents freeMapFile ->
                   vol_disk v' s = vol_disk sample_volume s)
  | _ => False
  end.
Proof.
  destruct (Create nachos sample_contents (Allocate_fuel 3841) sample_volume
              "big" 3841) as [[ok v']| |] eqn:E.
  - exact (Create_only_claims nachos sample_contents _ sample_volume "big"
             3841 ok v' E).
  - vm_compute in E. discriminate.
  - vm_compute in E. discriminate.
Defined.
